(** * Bigram language model with additive smoothing

    A shallow embedding of [bigram_language_model.ipynb]: the text
    preprocessing, the unigram and bigram counters, the smoothed estimator
    [get_probability], the training cell that builds the rare-word set, the
    count dictionaries and the vocabulary, the headline generator and the
    perplexity evaluator.

    Conventions of the embedding.
    - A Python [str] is a [string]; its characters are read as code points
      below 256.
    - A Python [int] is a [Z]; a Python [float] is idealised as an exact
      rational [Q] (and as a real [R] where [np.log] and [np.exp] occur).
    - A [dict] is a [gmap], a [set] is a [gset]; in-place updates of a
      dictionary become explicit state passing.
    - A raised exception is a value [Raise e] of the error monad [result]. *)

From Stdlib Require Import Ascii String QArith Lqa Reals Qreals Lra Lia.
From stdpp Require Import gmap strings list fin_maps.

Local Open Scope Z_scope.

(** ** Exceptions *)

Inductive exn : Set :=
| KeyError
| ZeroDivisionError
| ValueError.

Inductive result (A : Type) : Type :=
| Ok (a : A)
| Raise (e : exn).
Arguments Ok {A} a.
Arguments Raise {A} e.

Definition rbind {A B : Type} (r : result A) (k : A → result B) : result B :=
  match r with
  | Ok a => k a
  | Raise e => Raise e
  end.

Notation "'try' x := r 'in' k" := (rbind r (λ x, k))
  (at level 10, x name, r at level 100, k at level 200, only parsing).

(** [[f(x) for x in l]] where [f] may raise: the first exception wins. *)
Fixpoint rmap {A B : Type} (f : A → result B) (l : list A) : result (list B) :=
  match l with
  | [] => Ok []
  | x :: l' => try y := f x in try ys := rmap f l' in Ok (y :: ys)
  end.

(** ** Reserved tokens *)

Definition UNK_TOKEN : string := "<UNK>".
Definition START_TOKEN : string := "<START>".
Definition STOP_TOKEN : string := "<STOP>".

(** ** Text preprocessing *)

(** Membership in [string.punctuation]. *)
Definition is_punctuation (c : ascii) : bool :=
  let n := nat_of_ascii c in
  ((33 <=? n) && (n <=? 47) || (58 <=? n) && (n <=? 64) ||
   (91 <=? n) && (n <=? 96) || (123 <=? n) && (n <=? 126))%nat.

(** [str.isspace] on one character (code points below 256). *)
Definition is_space (c : ascii) : bool :=
  let n := nat_of_ascii c in
  ((9 <=? n) && (n <=? 13) || (28 <=? n) && (n <=? 32) ||
   (n =? 133) || (n =? 160))%nat.

(** [regex.sub('', s)] with [regex = re.compile('[%s]' % re.escape(string.punctuation))]. *)
Fixpoint regex_sub (s : string) : string :=
  match s with
  | EmptyString => EmptyString
  | String c s' => if is_punctuation c then regex_sub s' else String c (regex_sub s')
  end.

(** [h.split("\n")[0]]. *)
Fixpoint first_line (h : string) : string :=
  match h with
  | EmptyString => EmptyString
  | String c h' => if Ascii.eqb c "010" then EmptyString else String c (first_line h')
  end.

Definition preprocess (h : string) : string := regex_sub (first_line h).

(** [text.split(" ")]: split at every single space, empty pieces kept. *)
Fixpoint split_space (text : string) : list string :=
  match text with
  | EmptyString => [EmptyString]
  | String c text' =>
      if Ascii.eqb c " " then EmptyString :: split_space text'
      else match split_space text' with
           | w :: ws => String c w :: ws
           | [] => [String c EmptyString]
           end
  end.

(** [text.split()]: split at runs of whitespace, no empty pieces. *)
Fixpoint split_ws (text : string) : list string :=
  match text with
  | EmptyString => []
  | String c text' =>
      if is_space c then split_ws text'
      else match text' with
           | EmptyString => [String c EmptyString]
           | String c' _ =>
               if is_space c' then String c EmptyString :: split_ws text'
               else match split_ws text' with
                    | w :: ws => String c w :: ws
                    | [] => [String c EmptyString]
                    end
           end
  end.

(** [" ".join(ws)]. *)
Definition join_space (ws : list string) : string := String.concat " " ws.

(** [[START_TOKEN] + text.split(" ") + [STOP_TOKEN]]. *)
Definition wrap (text : string) : list string :=
  [START_TOKEN] ++ split_space text ++ [STOP_TOKEN].

(** ** Counting *)

(** The body of both counting loops: [d[k] = 1] for a new key, [d[k] += 1]
    otherwise. *)
Definition incr `{Countable K} (d : gmap K Z) (k : K) : gmap K Z :=
  match d !! k with
  | None => <[k := 1]> d
  | Some n => <[k := n + 1]> d
  end.

(** [[(tokens[i], tokens[i+1]) for i in range(len(tokens) - 1)]]. *)
Fixpoint adjacent (tokens : list string) : list (string * string) :=
  match tokens with
  | a :: (b :: _) as rest => (a, b) :: adjacent rest
  | _ => []
  end.

Definition count_unigrams (text : string) (unigram_dict : gmap string Z)
  : gmap string Z :=
  foldl incr unigram_dict (wrap text).

Definition count_bigrams (text : string) (bigram_dict : gmap (string * string) Z)
  : gmap (string * string) Z :=
  foldl incr bigram_dict (adjacent (wrap text)).

(** ** Smoothed estimator *)

Definition get_probability (target context : string)
    (unigram_dict : gmap string Z) (bigram_dict : gmap (string * string) Z)
    (alpha : Q) (vocab_size : Z) : result Q :=
  let bigram :=
    match bigram_dict !! (context, target) with
    | Some n => n
    | None => 0
    end in
  match unigram_dict !! context with
  | None => Raise KeyError
  | Some u =>
      let den := (inject_Z u + inject_Z vocab_size * alpha)%Q in
      if Qeq_bool den 0 then Raise ZeroDivisionError
      else Ok ((inject_Z bigram + alpha) / den)%Q
  end.

(** ** The training cell *)

Record model : Type := Model {
  low_freq : gset string;
  headlines_train_clean : list string;
  unigrams : gmap string Z;
  bigrams : gmap (string * string) Z;
  vocab : gset string
}.

Definition replace_text_train (low : gset string) (text : string) : string :=
  join_space (map (λ t, if decide (t ∈ low) then UNK_TOKEN else t) (split_ws text)).

Definition replace_text_dev (voc : gset string) (text : string) : string :=
  join_space (map (λ t, if decide (t ∉ voc) then UNK_TOKEN else t) (split_ws text)).

(** [all_words] after the first loop of the cell. *)
Definition all_words (headlines_train : list string) : gmap string Z :=
  foldl (λ d h, count_unigrams h d) ∅ headlines_train.

(** The rare-word set: the keys of [all_words] with [count <= min_freq]. *)
Definition find_low_freq (words : gmap string Z) (min_freq : Z) : gset string :=
  dom (filter (λ wc : string * Z, wc.2 ≤ min_freq) words).

(** The cell from the lines already stripped of punctuation
    ([headlines_train] after the setup cell). *)
Definition train_clean (headlines_train : list string) (min_freq : Z) : model :=
  let low := find_low_freq (all_words headlines_train) min_freq in
  let clean := map (replace_text_train low) headlines_train in
  {| low_freq := low;
     headlines_train_clean := clean;
     unigrams := foldl (λ d h, count_unigrams h d) ∅ clean;
     bigrams := foldl (λ d h, count_bigrams h d) ∅ clean;
     vocab := list_to_set (concat (map split_space clean))
                ∪ {[START_TOKEN]} ∪ {[STOP_TOKEN]} |}.

(** The whole pipeline from the lines as read from the file. *)
Definition train (raw : list string) (min_freq : Z) : model :=
  train_clean (map preprocess raw) min_freq.

(** [len(vocab)]. *)
Definition vocab_size (m : model) : Z := Z.of_nat (size (vocab m)).

(** [probability(target, context)] of a trained model. *)
Definition probability (m : model) (alpha : Q) (target context : string)
  : result Q :=
  get_probability target context (unigrams m) (bigrams m) alpha (vocab_size m).

(** ** Word sampling and headline generation *)

(** [sum(probs)] in exact arithmetic. *)
Definition Qsum (probs : list Q) : Q := foldr Qplus 0%Q probs.

(** The argument check of [np.random.multinomial(1, probs, 1)]: every entry
    lies in [0, 1] and the entries before the last sum to at most 1
    (otherwise numpy raises [ValueError]). *)
Definition pvals_ok (probs : list Q) : bool :=
  forallb (λ p, Qle_bool 0 p && Qle_bool p 1) probs
  && Qle_bool (Qsum (removelast probs)) 1.

(** The one-trial multinomial draw puts its single success at index [i] with
    probability [probs[i]], and at the last index with the remaining mass
    [1 - sum(probs[:-1])]. [draw_possible probs i] says that the draw can
    come out at [i]. *)
Definition draw_possible (probs : list Q) (i : nat) : bool :=
  pvals_ok probs &&
  match probs !! i with
  | None => false
  | Some p =>
      if decide (S i = length probs)
      then negb (Qle_bool (1 - Qsum (removelast probs)) 0)
      else negb (Qle_bool p 0)
  end.

(** [words[np.argmax(np.random.multinomial(1, probs, 1))]], the outcome of
    the draw being the index [i] taken from the random source. *)
Definition sample_word (words : list string) (probs : list Q) (i : nat)
  : result string :=
  if pvals_ok probs then
    match words !! i with
    | Some w => Ok w
    | None => Raise ValueError
    end
  else Raise ValueError.

(** The candidate weights of one iteration of the [while] loop of
    [generate_headline]: [probs], over [words = list(vocab)]. *)
Definition step_probs (m : model) (alpha : Q) (sent : list string)
  : result (list Q) :=
  rmap (λ word,
      get_probability word (List.last sent EmptyString)
        (unigrams m) (bigrams m) alpha (vocab_size m)) (elements (vocab m)).

(** One iteration of the loop. *)
Definition generate_step (m : model) (alpha : Q) (sent : list string) (i : nat)
  : result (list string) :=
  let words := elements (vocab m) in
  try probs := step_probs m alpha sent in
  try next_word := sample_word words probs i in
  Ok (sent ++ [next_word]).

(** The values [sent] can take at the head of the [while] loop: it starts
    as [[START_TOKEN]] and grows by one possible draw per iteration while
    its last token is not [STOP_TOKEN]. *)
Inductive generating (m : model) (alpha : Q) : list string → Prop :=
| generating_start : generating m alpha [START_TOKEN]
| generating_next (sent sent' : list string) (probs : list Q) (i : nat) :
    generating m alpha sent →
    List.last sent EmptyString ≠ STOP_TOKEN →
    step_probs m alpha sent = Ok probs →
    draw_possible probs i = true →
    generate_step m alpha sent i = Ok sent' →
    generating m alpha sent'.

(** [generate_headline] driven by the outcomes [draws] of the successive
    multinomial draws: [Ok (Some text)] when the loop has ended and
    [text = ' '.join(sent[1:-1])] is printed, [Ok None] when the draws are
    used up before [STOP_TOKEN] is sampled. *)
Fixpoint generate_headline (m : model) (alpha : Q) (draws : list nat)
    (sent : list string) : result (option string) :=
  if decide (List.last sent EmptyString = STOP_TOKEN)
  then Ok (Some (join_space (removelast (tail sent))))
  else match draws with
       | [] => Ok None
       | i :: draws' =>
           try sent' := generate_step m alpha sent i in
           generate_headline m alpha draws' sent'
       end.

(** ** Perplexity *)

(** The loop of [calculate_perplexity] over the adjacent pairs
    [(tokens[i], tokens[i+1])], threading [log_sum]. [np.log] of a positive
    probability is [ln]. *)
Fixpoint log_sum_loop (pairs : list (string * string))
    (unigram_dict : gmap string Z) (bigram_dict : gmap (string * string) Z)
    (alpha : Q) (vocab_size : Z) (log_sum : R) : result R :=
  match pairs with
  | [] => Ok log_sum
  | (context, target) :: pairs' =>
      try prob := get_probability target context unigram_dict bigram_dict
                    alpha vocab_size in
      log_sum_loop pairs' unigram_dict bigram_dict alpha vocab_size
        (log_sum + ln (Q2R prob) * (-1))%R
  end.

Definition calculate_perplexity (text : string)
    (unigram_dict : gmap string Z) (bigram_dict : gmap (string * string) Z)
    (alpha : Q) (vocab_size : Z) : result R :=
  let tokens := wrap text in
  try log_sum := log_sum_loop (adjacent tokens) unigram_dict bigram_dict
                   alpha vocab_size 0%R in
  Ok (exp (log_sum / IZR (Z.of_nat (length tokens) - 1))).

(** The evaluator on one held-out line as read from the file: the setup
    cell's cleaning, [replace_text_dev], then [calculate_perplexity] with the
    model's dictionaries and [len(vocab)]. *)
Definition evaluate (m : model) (alpha : Q) (raw : string) : result R :=
  calculate_perplexity (replace_text_dev (vocab m) (preprocess raw))
    (unigrams m) (bigrams m) alpha (vocab_size m).

(** ** Auxiliary notions used in the statements *)

(** A dictionary read with default 0. *)
Definition count_of `{Countable K} (d : gmap K Z) (k : K) : Z :=
  default 0 (d !! k).

(** [sum(l)] on integers. *)
Definition Zsum (l : list Z) : Z := foldr Z.add 0 l.

(** [sum(n for (c, t), n in bigram_dict.items() if c == context)]. *)
Definition row_sum (bigram_dict : gmap (string * string) Z) (context : string) : Z :=
  Zsum (map (λ kn : string * string * Z,
               if decide (kn.1.1 = context) then kn.2 else 0)
            (map_to_list bigram_dict)).

(** The number of occurrences of [x] in [l]. *)
Fixpoint occ `{EqDecision A} (x : A) (l : list A) : Z :=
  match l with
  | [] => 0
  | y :: l' => (if decide (y = x) then 1 else 0) + occ x l'
  end.

(** Every token counted by the second loop of the training cell, and every
    bigram. *)
Definition counted_tokens (clean : list string) : list string :=
  concat (map wrap clean).

Definition counted_bigrams (clean : list string) : list (string * string) :=
  concat (map (λ h, adjacent (wrap h)) clean).

(** [sum(probability(t, context) for t in vocab)]. *)
Definition total_probability (m : model) (alpha : Q) (context : string)
  : result Q :=
  try probs := rmap (λ t, probability m alpha t context) (elements (vocab m)) in
  Ok (Qsum probs).

(** [all(P(c) for c in s)]. *)
Fixpoint all_chars (P : ascii → bool) (s : string) : bool :=
  match s with
  | EmptyString => true
  | String c s' => P c && all_chars P s'
  end.

Definition not_blank (c : ascii) : bool := negb (Ascii.eqb c " ").
Definition not_punctuation (c : ascii) : bool := negb (is_punctuation c).
Definition not_newline (c : ascii) : bool := negb (Ascii.eqb c "010").

(** A piece of [text.split()]: not empty and free of whitespace. *)
Definition is_word (w : string) : Prop :=
  w ≠ EmptyString ∧ all_chars (λ c, negb (is_space c)) w = true.

(** The two corpora of the specification's scenarios. *)
Definition corpus_the : list string := ["the cat sat"; "the dog ran"]%string.
Definition corpus_ab : list string := ["a b"; "a c"]%string.

(** Two lines "x<TAB>y": a tab, not a space, between the two words. *)
Definition x_tab_y : string := String "x" (String "009" (String "y" EmptyString)).
Definition corpus_tab : list string := [x_tab_y; x_tab_y].

(** A line on which [text.split(" ")] and [text.split()] agree: words
    separated by single spaces and nothing else. *)
Definition single_spaced (text : string) : Prop := split_space text = split_ws text.

(** ** The evaluation cell *)

(** [sum(l)] on reals. *)
Definition Rsum (l : list R) : R := foldr Rplus 0%R l.

(** The last cell of the notebook: the perplexity of every held-out line is
    collected in [perplexities], then [sum(perplexities) / len(perplexities)]
    is printed; on an empty list that division is [0 / 0]. *)
Definition average_perplexity (m : model) (alpha : Q) (headlines_dev : list string)
  : result R :=
  try perplexities := rmap (evaluate m alpha) headlines_dev in
  match perplexities with
  | [] => Raise ZeroDivisionError
  | _ => Ok (Rsum perplexities / INR (length perplexities))%R
  end.

(** [sum(d.values())]. *)
Definition total_count `{Countable K} (d : gmap K Z) : Z :=
  Zsum (map snd (map_to_list d)).

(** ** The recurrent-network notebook: vocabulary, indices, training windows

    The second notebook repeats the cleaning and the rare-word cell on the
    first 100000 lines, builds its own vocabulary (STOP added, START not),
    numbers it, cuts the headlines into fixed-length windows and generates
    with a length cap. Lengths and list indices, never negative, are [nat]
    here. The network's prediction followed by [sample] is an oracle: the
    index it returns is an input of the generation loop. *)

Module rnn.

(** [headlines_train_clean] of the first cell, from the lines as read
    ([f.readlines()[:100000]]). *)
Definition max_lines : nat := Z.to_nat 100000.

Definition headlines_clean (raw : list string) (min_freq : Z) : list string :=
  headlines_train_clean (train (take max_lines raw) min_freq).

(** [vocab]: the words of the rewritten lines and [STOP_TOKEN]. *)
Definition vocab (clean : list string) : gset string :=
  list_to_set (concat (map split_space clean)) ∪ {[STOP_TOKEN]}.

(** [enumerate(l)]. *)
Definition enumerate {A} (l : list A) : list (nat * A) :=
  zip (seq 0 (length l)) l.

(** [word_to_index = {vocab_list[i]: i for i in range(len(vocab_list))}]. *)
Definition word_to_index (vocab_list : list string) : gmap string nat :=
  foldl (λ d iw, <[iw.2 := iw.1]> d) ∅ (enumerate vocab_list).

(** [index_to_word = {v: k for k, v in word_to_index.items()}]; the items
    come in insertion order, that of [vocab_list], whose words are
    distinct. *)
Definition index_to_word (vocab_list : list string) : gmap nat string :=
  foldl (λ d iw, <[iw.1 := iw.2]> d) ∅ (enumerate vocab_list).

(** [max(l)], a [ValueError] on the empty list. *)
Definition max_list (l : list nat) : result nat :=
  match l with
  | [] => Raise ValueError
  | x :: l' => Ok (foldl Nat.max x l')
  end.

(** [sent_len = max([len(h.split(" ")) for h in headlines_train_clean]) + 1]. *)
Definition sent_len (clean : list string) : result nat :=
  try longest := max_list (map (λ h, length (split_space h)) clean) in
  Ok (longest + 1)%nat.

(** The padded text of one headline. *)
Definition padded (n : nat) (h : string) : list string :=
  replicate n START_TOKEN ++ split_space h ++ [STOP_TOKEN].

(** The inner loop of the [data] cell for one headline: the pairs
    [(text[i:i+sent_len], text[i+sent_len])]; [None] stands for an
    [IndexError] of [text[i+sent_len]]. *)
Definition windows (n : nat) (h : string) : option (list (list string * string)) :=
  let text := padded n h in
  mapM (λ i, w ← text !! (i + n)%nat; Some (take n (drop i text), w))
       (seq 0 (length text - n)).

(** [num_batches = -(-len(data) // batch_size)] with [batch_size = 512]. *)
Definition batch_size : Z := 512.
Definition num_batches (len_data : Z) : Z := - ((- len_data) `div` batch_size).

(** The loop of [generate_headline]. [draws] are the successive values of
    [next_word]; the loop state is [generated] and [curr_len]. The result is
    [Ok (Some text)] when [text] is printed and [Ok None] when the draws are
    used up first; a [KeyError] comes from [word_to_index[STOP_TOKEN]] or
    [index_to_word[next_word]]. *)
Fixpoint generate_loop (vocab_list : list string) (n : nat) (draws : list nat)
    (generated : list string) (curr_len : nat) : result (option string) :=
  match draws with
  | [] => Ok None
  | next_word :: draws' =>
      match word_to_index vocab_list !! STOP_TOKEN with
      | None => Raise KeyError
      | Some stop_index =>
          if bool_decide (next_word = stop_index) || bool_decide (curr_len = n)
          then Ok (Some (join_space generated))
          else match index_to_word vocab_list !! next_word with
               | None => Raise KeyError
               | Some w =>
                   generate_loop vocab_list n draws' (generated ++ [w]) (S curr_len)
               end
      end
  end.

Definition generate_headline (vocab_list : list string) (n : nat) (draws : list nat)
  : result (option string) :=
  generate_loop vocab_list n draws [] 0.

End rnn.

(** * Properties *)

(** ** Counting a list of keys into a dictionary *)

Section counting.
Context `{Countable K}.
Implicit Types (d : gmap K Z) (k : K) (l : list K).

Lemma occ_nonneg k l : 0 ≤ occ k l.
Proof. induction l as [|y l IH]; simpl; [lia | case_decide; lia]. Qed.

Lemma occ_app k l1 l2 : occ k (l1 ++ l2) = occ k l1 + occ k l2.
Proof. induction l1 as [|y l1 IH]; simpl; [done | rewrite IH; lia]. Qed.

Lemma occ_zero_iff k l : occ k l = 0 ↔ k ∉ l.
Proof.
  induction l as [|y l IH]; simpl.
  - split; [intros _; apply not_elem_of_nil | done].
  - rewrite not_elem_of_cons. pose proof (occ_nonneg k l).
    case_decide as Hy.
    + split; [lia | intros [Hne _]; congruence].
    + rewrite Z.add_0_l, IH. split; [intros Hk; split; [congruence | done] | tauto].
Qed.

Lemma occ_pos_iff k l : 0 < occ k l ↔ k ∈ l.
Proof.
  pose proof (occ_nonneg k l). pose proof (occ_zero_iff k l).
  destruct (decide (k ∈ l)); split; intros; try done; try lia.
  - assert (occ k l ≠ 0) by tauto. lia.
  - assert (occ k l = 0) by tauto. lia.
Qed.

Lemma lookup_incr d k' k :
  incr d k' !! k =
    if decide (k' = k) then Some (count_of d k + 1) else d !! k.
Proof.
  unfold incr, count_of. case_decide as Hk.
  - subst k'. destruct (d !! k) eqn:E; rewrite lookup_insert_eq; done.
  - destruct (d !! k'); rewrite lookup_insert_ne; done.
Qed.

Lemma lookup_foldl_incr l d k :
  foldl incr d l !! k =
    if decide (occ k l = 0) then d !! k
    else Some (count_of d k + occ k l).
Proof.
  revert d. induction l as [|y l IH]; intros d; simpl.
  - done.
  - rewrite IH. pose proof (occ_nonneg k l).
    unfold count_of at 1. rewrite lookup_incr.
    repeat case_decide; subst; simpl; try lia; try done.
    + f_equal. lia.
    + unfold count_of. f_equal. lia.
Qed.

Lemma lookup_counted l k :
  foldl incr (∅ : gmap K Z) l !! k =
    if decide (k ∈ l) then Some (occ k l) else None.
Proof.
  rewrite lookup_foldl_incr. unfold count_of. rewrite lookup_empty. simpl.
  pose proof (occ_zero_iff k l).
  repeat case_decide; try done; tauto.
Qed.

Lemma count_of_counted l k : count_of (foldl incr (∅ : gmap K Z) l) k = occ k l.
Proof.
  unfold count_of. rewrite lookup_counted. case_decide as Hk; simpl; [done|].
  symmetry. by apply occ_zero_iff.
Qed.
End counting.

(** ** The estimator on arbitrary dictionaries *)

Section estimator.
Implicit Types (ud : gmap string Z) (bd : gmap (string * string) Z).
Implicit Types (alpha : Q) (V u : Z).

Lemma get_probability_unknown target context ud bd alpha V :
  ud !! context = None →
  get_probability target context ud bd alpha V = Raise KeyError.
Proof. intros Hu. unfold get_probability. by rewrite Hu. Qed.

Lemma get_probability_known target context ud bd alpha V u :
  ud !! context = Some u →
  ¬ (inject_Z u + inject_Z V * alpha == 0)%Q →
  get_probability target context ud bd alpha V =
    Ok ((inject_Z (count_of bd (context, target)) + alpha)
        / (inject_Z u + inject_Z V * alpha))%Q.
Proof.
  intros Hu Hden. unfold get_probability, count_of. rewrite Hu.
  destruct (Qeq_bool _ 0) eqn:E.
  - apply Qeq_bool_eq in E. contradiction.
  - by destruct (bd !! (context, target)).
Qed.

Lemma get_probability_zero_den target context ud bd alpha V u :
  ud !! context = Some u →
  (inject_Z u + inject_Z V * alpha == 0)%Q →
  get_probability target context ud bd alpha V = Raise ZeroDivisionError.
Proof.
  intros Hu Hden. unfold get_probability. rewrite Hu.
  apply Qeq_eq_bool in Hden. by rewrite Hden.
Qed.

Lemma denominator_pos alpha V u :
  0 ≤ u → 0 < V → (0 < alpha)%Q →
  (0 < inject_Z u + inject_Z V * alpha)%Q.
Proof.
  intros Hu HV Ha.
  assert (0 <= inject_Z u)%Q
    by (change 0%Q with (inject_Z 0); by rewrite <- Zle_Qle).
  assert (0 < inject_Z V)%Q
    by (change 0%Q with (inject_Z 0); by rewrite <- Zlt_Qlt).
  assert (0 < inject_Z V * alpha)%Q by (by apply Qmult_lt_0_compat).
  Lqa.lra.
Qed.
End estimator.

(** ** Sums over lists *)

Lemma Zsum_cons (x : Z) (l : list Z) : Zsum (x :: l) = x + Zsum l.
Proof. reflexivity. Qed.

Lemma Qsum_cons (x : Q) (l : list Q) : Qsum (x :: l) = (x + Qsum l)%Q.
Proof. reflexivity. Qed.

Lemma Zsum_perm (l l' : list Z) : l ≡ₚ l' → Zsum l = Zsum l'.
Proof. induction 1; rewrite ?Zsum_cons; lia. Qed.

Lemma Zsum_map_add {A} (f g : A → Z) (l : list A) :
  Zsum (map (λ x, f x + g x) l) = Zsum (map f l) + Zsum (map g l).
Proof. induction l as [|x l IH]; cbn [map]; rewrite ?Zsum_cons; [done | lia]. Qed.

Lemma Zsum_map_ext {A} (f g : A → Z) (l : list A) :
  (∀ x, x ∈ l → f x = g x) → Zsum (map f l) = Zsum (map g l).
Proof.
  induction l as [|x l IH]; intros Hfg; cbn [map]; [done|].
  rewrite !Zsum_cons, (Hfg x), IH; [done | | left].
  intros y Hy. apply Hfg. by right.
Qed.

Lemma Zsum_map_zero {A} (l : list A) : Zsum (map (λ _, 0) l) = 0.
Proof. induction l; cbn [map]; rewrite ?Zsum_cons; [done | lia]. Qed.

(** Over a duplicate-free list, the indicator of one of its elements sums
    to one. *)
Lemma Zsum_indicator `{EqDecision A} (x : A) (l : list A) :
  NoDup l → x ∈ l → Zsum (map (λ y, if decide (x = y) then 1 else 0) l) = 1.
Proof.
  induction 1 as [|y l Hy Hl IH]; intros Hx; [by apply elem_of_nil in Hx|].
  cbn [map]. rewrite Zsum_cons. case_decide as E.
  - subst y. rewrite (Zsum_map_ext _ (λ _, 0)), Zsum_map_zero; [lia|].
    intros z Hz. case_decide; [congruence | done].
  - apply elem_of_cons in Hx as [?|Hx]; [done|]. rewrite IH; done.
Qed.

Lemma Qsum_scaled {A} (b : A → Z) (alpha den : Q) (l : list A) :
  (Qsum (map (λ t, (inject_Z (b t) + alpha) / den) l)
   == (inject_Z (Zsum (map b l)) + inject_Z (Z.of_nat (length l)) * alpha) / den)%Q.
Proof.
  induction l as [|x l IH]; cbn [map length].
  - unfold Qdiv. change (Qsum []) with 0%Q. change (Zsum []) with 0. simpl. ring.
  - rewrite Qsum_cons, Zsum_cons, IH, Nat2Z.inj_succ, <- Z.add_1_r, !inject_Z_plus.
    unfold Qdiv. change (inject_Z 1) with 1%Q. ring.
Qed.

Lemma elem_of_map {A B} (f : A → B) (l : list A) (y : B) :
  y ∈ map f l ↔ ∃ x, y = f x ∧ x ∈ l.
Proof.
  rewrite list_elem_of_In, in_map_iff. split.
  - intros (x & <- & Hx). exists x. by rewrite list_elem_of_In.
  - intros (x & -> & Hx). exists x. by rewrite <- list_elem_of_In.
Qed.

Lemma elem_of_concat {A} (ls : list (list A)) (x : A) :
  x ∈ concat ls ↔ ∃ l, x ∈ l ∧ l ∈ ls.
Proof.
  induction ls as [|l ls IH]; cbn [concat].
  - split; [by intros ?%elem_of_nil | by intros (? & _ & ?%elem_of_nil)].
  - rewrite elem_of_app, IH. split.
    + intros [Hx|(l' & Hx & Hl')]; [exists l; split; [done | left]|].
      exists l'. split; [done | by right].
    + intros (l' & Hx & [->|Hl']%elem_of_cons); [by left|]. right; eauto.
Qed.

Lemma rmap_ok {A B} (f : A → result B) (g : A → B) (l : list A) :
  (∀ x, x ∈ l → f x = Ok (g x)) → rmap f l = Ok (map g l).
Proof.
  induction l as [|x l IH]; intros Hf; simpl; [done|].
  rewrite (Hf x) by left. simpl. rewrite IH; [done|].
  intros y Hy. apply Hf. by right.
Qed.

(** ** Adjacent pairs of a token list *)

Lemma adjacent_cons2 (a b : string) (l : list string) :
  adjacent (a :: b :: l) = (a, b) :: adjacent (b :: l).
Proof. reflexivity. Qed.

Lemma map_fst_adjacent (l : list string) : map fst (adjacent l) = removelast l.
Proof.
  induction l as [|a [|b l] IH]; [done | done |].
  rewrite adjacent_cons2. cbn [map fst]. rewrite IH. done.
Qed.

Lemma map_snd_adjacent (l : list string) : map snd (adjacent l) = tail l.
Proof.
  induction l as [|a [|b l] IH]; [done | done |].
  rewrite adjacent_cons2. cbn [map snd]. rewrite IH. done.
Qed.

Lemma occ_pair_le_fst (c t : string) (pairs : list (string * string)) :
  occ (c, t) pairs ≤ occ c (map fst pairs).
Proof.
  induction pairs as [|[c' t'] pairs IH]; simpl; [done|].
  repeat case_decide; simplify_eq; lia.
Qed.

(** Summed over a duplicate-free list that holds every second component,
    the occurrences of the pairs [(c, t)] are the occurrences of [c] as a
    first component. *)
Lemma Zsum_occ_pairs (c : string) (ts : list string) (pairs : list (string * string)) :
  NoDup ts →
  (∀ p, p ∈ pairs → p.2 ∈ ts) →
  Zsum (map (λ t, occ (c, t) pairs) ts) = occ c (map fst pairs).
Proof.
  intros Hnd. induction pairs as [|[c' t'] pairs IH]; intros Hin.
  - simpl. apply Zsum_map_zero.
  - cbn [occ map fst].
    rewrite (Zsum_map_add (λ t, if decide ((c', t') = (c, t)) then 1 else 0)).
    rewrite IH by (intros p Hp; apply Hin; by right).
    f_equal. case_decide as Hc.
    + subst c'. rewrite (Zsum_map_ext _ (λ t, if decide (t' = t) then 1 else 0)).
      * apply Zsum_indicator; [done|]. apply (Hin (c, t')). left.
      * intros t _. repeat case_decide; simplify_eq; done.
    + rewrite (Zsum_map_ext _ (λ _, 0)); [apply Zsum_map_zero|].
      intros t _. case_decide; simplify_eq; done.
Qed.

(** The same sum read from a dictionary: the entries of the row of
    [context] add up to the sum of the looked-up counts over any
    duplicate-free list holding all the row's targets. *)
Lemma row_sum_lookup (bd : gmap (string * string) Z) (context : string)
    (ts : list string) :
  NoDup ts →
  (∀ t n, bd !! (context, t) = Some n → t ∈ ts) →
  row_sum bd context = Zsum (map (λ t, count_of bd (context, t)) ts).
Proof.
  intros Hnd. unfold row_sum.
  induction bd as [|[c' t'] n bd Hfresh IH] using map_ind; intros Hin.
  - rewrite map_to_list_empty. simpl. symmetry.
    rewrite (Zsum_map_ext _ (λ _, 0)); [apply Zsum_map_zero|].
    intros t _. unfold count_of. by rewrite lookup_empty.
  - rewrite (Zsum_perm _ _ (Permutation_map _ (map_to_list_insert _ _ _ Hfresh))).
    cbn [map fst snd]. rewrite Zsum_cons, IH; last first.
    { intros t k Hk. apply (Hin t k). rewrite lookup_insert_ne; [done|].
      intros E. simplify_eq. }
    case_decide as Hc.
    + subst c'.
      rewrite (Zsum_map_ext (λ t, count_of (<[(context, t') := n]> bd) (context, t))
                 (λ t, (if decide (t' = t) then n else 0) + count_of bd (context, t))).
      * rewrite Zsum_map_add. f_equal.
        rewrite (Zsum_map_ext _ (λ t, n * (if decide (t' = t) then 1 else 0))).
        -- assert (Ht' : t' ∈ ts) by (apply (Hin t' n); by rewrite lookup_insert_eq).
           clear -Hnd Ht'. induction Hnd as [|y l Hy Hl IHl].
           ++ by apply elem_of_nil in Ht'.
           ++ cbn [map]. rewrite Zsum_cons. case_decide as E.
              ** subst y. rewrite (Zsum_map_ext _ (λ _, 0)), Zsum_map_zero; [lia|].
                 intros z Hz. case_decide; [congruence | lia].
              ** apply elem_of_cons in Ht' as [?|Ht']; [done|].
                 rewrite <- IHl by done. lia.
        -- intros t _. case_decide; lia.
      * intros t _. unfold count_of. case_decide as E.
        -- subst t. rewrite lookup_insert_eq, Hfresh. simpl. lia.
        -- rewrite lookup_insert_ne by congruence. lia.
    + rewrite Z.add_0_l. apply Zsum_map_ext. intros t _. unfold count_of.
      rewrite lookup_insert_ne by congruence. done.
Qed.

(** ** The dictionaries and the vocabulary of a trained model *)

Lemma foldl_count_unigrams (hs : list string) (d : gmap string Z) :
  foldl (λ d h, count_unigrams h d) d hs = foldl incr d (counted_tokens hs).
Proof.
  revert d. induction hs as [|h hs IH]; intros d; [done|].
  unfold counted_tokens in *. cbn [map concat foldl].
  rewrite foldl_app, IH. done.
Qed.

Lemma foldl_count_bigrams (hs : list string) (d : gmap (string * string) Z) :
  foldl (λ d h, count_bigrams h d) d hs = foldl incr d (counted_bigrams hs).
Proof.
  revert d. induction hs as [|h hs IH]; intros d; [done|].
  unfold counted_bigrams in *. cbn [map concat foldl].
  rewrite foldl_app, IH. done.
Qed.

Lemma removelast_wrap (h : string) :
  removelast (wrap h) = START_TOKEN :: split_space h.
Proof.
  unfold wrap. cbn [app]. rewrite app_comm_cons, removelast_last. done.
Qed.

Lemma elem_of_wrap (k h : string) :
  k ∈ wrap h ↔ k = START_TOKEN ∨ k ∈ split_space h ∨ k = STOP_TOKEN.
Proof.
  unfold wrap. rewrite !elem_of_app, !list_elem_of_singleton. done.
Qed.

Lemma elem_of_counted_tokens (k : string) (clean : list string) :
  k ∈ counted_tokens clean ↔ ∃ h, h ∈ clean ∧ k ∈ wrap h.
Proof.
  unfold counted_tokens. rewrite elem_of_concat. split.
  - intros (l & Hk & Hl). apply elem_of_map in Hl as (h & -> & Hh). eauto.
  - intros (h & Hh & Hk). exists (wrap h). split; [done|].
    apply elem_of_map. eauto.
Qed.

Lemma elem_of_counted_bigrams (p : string * string) (clean : list string) :
  p ∈ counted_bigrams clean ↔ ∃ h, h ∈ clean ∧ p ∈ adjacent (wrap h).
Proof.
  unfold counted_bigrams. rewrite elem_of_concat. split.
  - intros (l & Hk & Hl). apply elem_of_map in Hl as (h & -> & Hh). eauto.
  - intros (h & Hh & Hk). exists (adjacent (wrap h)). split; [done|].
    apply elem_of_map. eauto.
Qed.

(** The first components of the counted bigrams are the counted tokens
    without the closing [STOP_TOKEN] of each line. *)
Lemma occ_fst_counted_bigrams (c : string) (clean : list string) :
  occ c (map fst (counted_bigrams clean)) =
    occ c (counted_tokens clean)
    - (if decide (STOP_TOKEN = c) then Z.of_nat (length clean) else 0).
Proof.
  unfold counted_bigrams, counted_tokens.
  induction clean as [|h clean IH]; [simpl; case_decide; done|].
  cbn [map concat length]. rewrite map_app, !occ_app, IH, map_fst_adjacent.
  rewrite removelast_wrap. unfold wrap at 2.
  cbn [app]. rewrite app_comm_cons, occ_app.
  change (occ c [STOP_TOKEN]) with ((if decide (STOP_TOKEN = c) then 1 else 0) + 0).
  destruct (decide (STOP_TOKEN = c)); lia.
Qed.

Section trained.
Variables (headlines_train : list string) (min_freq : Z).

Local Abbreviation m := (train_clean headlines_train min_freq).
Local Abbreviation clean := (headlines_train_clean m).

Lemma unigrams_eq : unigrams m = foldl incr ∅ (counted_tokens clean).
Proof. apply foldl_count_unigrams. Qed.

Lemma bigrams_eq : bigrams m = foldl incr ∅ (counted_bigrams clean).
Proof. apply foldl_count_bigrams. Qed.

Lemma count_of_unigrams (k : string) :
  count_of (unigrams m) k = occ k (counted_tokens clean).
Proof. rewrite unigrams_eq. apply count_of_counted. Qed.

Lemma count_of_bigrams (p : string * string) :
  count_of (bigrams m) p = occ p (counted_bigrams clean).
Proof. rewrite bigrams_eq. apply count_of_counted. Qed.

Lemma lookup_unigrams (k : string) :
  unigrams m !! k =
    if decide (k ∈ counted_tokens clean)
    then Some (occ k (counted_tokens clean)) else None.
Proof. rewrite unigrams_eq. apply lookup_counted. Qed.

(** Every recorded unigram count is at least one. *)
Lemma unigrams_pos (k : string) (n : Z) : unigrams m !! k = Some n → 1 ≤ n.
Proof.
  rewrite lookup_unigrams. case_decide as Hk; [|done].
  intros [= <-]. apply occ_pos_iff in Hk.
  cbn [headlines_train_clean train_clean] in *. lia.
Qed.

Lemma count_of_unigrams_nonneg (k : string) : 0 ≤ count_of (unigrams m) k.
Proof. rewrite count_of_unigrams. apply occ_nonneg. Qed.

Lemma elem_of_vocab (k : string) :
  k ∈ vocab m ↔
    k = START_TOKEN ∨ k = STOP_TOKEN ∨ ∃ h, h ∈ clean ∧ k ∈ split_space h.
Proof.
  cbn [vocab train_clean].
  rewrite !elem_of_union, !elem_of_singleton, elem_of_list_to_set, elem_of_concat.
  split.
  - intros [[(l & Hk & Hl)| ->]| ->]; [|by left|by right; left].
    apply elem_of_map in Hl as (h & -> & Hh). right; right; eauto.
  - intros [->|[->|(h & Hh & Hk)]]; [by left; right|by right|].
    left; left. exists (split_space h). split; [done|].
    apply elem_of_map. eauto.
Qed.

Lemma START_in_vocab : START_TOKEN ∈ vocab m.
Proof. apply elem_of_vocab. by left. Qed.

Lemma STOP_in_vocab : STOP_TOKEN ∈ vocab m.
Proof. apply elem_of_vocab. by right; left. Qed.

Lemma vocab_size_ge_2 : 2 ≤ vocab_size m.
Proof.
  unfold vocab_size.
  assert (Hsub : ({[START_TOKEN; STOP_TOKEN]} : gset string) ⊆ vocab m).
  { intros k. rewrite elem_of_union, !elem_of_singleton.
    intros [->| ->]; [apply START_in_vocab | apply STOP_in_vocab]. }
  apply subseteq_size in Hsub.
  rewrite size_union in Hsub by (apply disjoint_singleton_l; by rewrite elem_of_singleton).
  rewrite !size_singleton in Hsub. lia.
Qed.

(** With at least one training line the keys of [unigrams] are exactly
    the vocabulary. *)
Lemma unigrams_vocab (k : string) :
  headlines_train ≠ [] → is_Some (unigrams m !! k) ↔ k ∈ vocab m.
Proof.
  intros Hne. rewrite lookup_unigrams, elem_of_vocab.
  assert (Hex : ∃ h, h ∈ clean).
  { cbn [headlines_train_clean train_clean].
    destruct headlines_train as [|h hs]; [done|]. eexists. left. }
  destruct Hex as [h0 Hh0].
  case_decide as Hk; rewrite elem_of_counted_tokens in Hk.
  - split; [intros _|eauto].
    destruct Hk as (h & Hh & Hk). apply elem_of_wrap in Hk.
    destruct Hk as [->|[Hk| ->]]; [by left | right; right; eauto | by right; left].
  - split; [by intros [? ?]|]. intros Hv. exfalso. apply Hk.
    destruct Hv as [->|[->|(h & Hh & Hv)]].
    + exists h0. split; [done|]. apply elem_of_wrap. by left.
    + exists h0. split; [done|]. apply elem_of_wrap. by right; right.
    + exists h. split; [done|]. apply elem_of_wrap. by right; left.
Qed.

(** Both tokens of a recorded bigram are in the vocabulary. *)
Lemma bigrams_target_vocab (c t : string) :
  (c, t) ∈ counted_bigrams clean → t ∈ vocab m.
Proof.
  intros Hp. apply elem_of_counted_bigrams in Hp as (h & Hh & Hp).
  assert (Ht : t ∈ map snd (adjacent (wrap h)))
    by (apply elem_of_map; by exists (c, t)).
  clear Hp. rename Ht into Hp. rewrite map_snd_adjacent in Hp.
  unfold wrap in Hp. cbn [app tail snd] in Hp.
  apply elem_of_app in Hp as [Hp|Hp].
  - apply elem_of_vocab. right; right. eauto.
  - apply list_elem_of_singleton in Hp as ->. apply STOP_in_vocab.
Qed.

Lemma lookup_bigrams_vocab (c t : string) (n : Z) :
  bigrams m !! (c, t) = Some n → t ∈ vocab m.
Proof.
  rewrite bigrams_eq, lookup_counted. case_decide as Hp; [|done].
  intros _. by apply bigrams_target_vocab in Hp.
Qed.

(** A bigram never outnumbers its context. *)
Lemma bigram_le_unigram (c t : string) :
  0 ≤ count_of (bigrams m) (c, t) ≤ count_of (unigrams m) c.
Proof.
  rewrite count_of_bigrams, count_of_unigrams. split; [apply occ_nonneg|].
  etrans; [apply occ_pair_le_fst|]. rewrite occ_fst_counted_bigrams.
  case_decide; lia.
Qed.

(** The row of every context other than [STOP_TOKEN] adds up to the
    context's unigram count. *)
Lemma row_counts (c : string) :
  c ≠ STOP_TOKEN →
  Zsum (map (λ t, count_of (bigrams m) (c, t)) (elements (vocab m)))
    = count_of (unigrams m) c.
Proof.
  intros Hc.
  rewrite (Zsum_map_ext _ (λ t, occ (c, t) (counted_bigrams clean)))
    by (intros t _; apply count_of_bigrams).
  rewrite Zsum_occ_pairs.
  - rewrite occ_fst_counted_bigrams, count_of_unigrams.
    case_decide; [congruence | lia].
  - apply NoDup_elements.
  - intros [c' t'] Hp. apply elem_of_elements. by apply bigrams_target_vocab in Hp.
Qed.
End trained.

(** ** Splitting and joining *)

Lemma split_space_nonempty (text : string) : split_space text ≠ [].
Proof. destruct text as [|c text]; simpl; [done|]. by repeat case_match. Qed.

Lemma all_chars_split_space (P : ascii → bool) (text w : string) :
  all_chars P text = true → w ∈ split_space text → all_chars P w = true.
Proof.
  revert w. induction text as [|c text IH]; intros w Hall Hw; simpl in *.
  - by apply list_elem_of_singleton in Hw as ->.
  - apply andb_true_iff in Hall as [Hc Hall].
    destruct (Ascii.eqb c " ").
    + apply elem_of_cons in Hw as [->|Hw]; [done | by apply IH].
    + destruct (split_space text) as [|w0 ws] eqn:E.
      * apply list_elem_of_singleton in Hw as ->. simpl. by rewrite Hc.
      * apply elem_of_cons in Hw as [->|Hw].
        -- simpl. rewrite Hc. apply IH; [done | left].
        -- apply IH; [done | by right].
  Qed.

Lemma all_chars_split_ws (P : ascii → bool) (text w : string) :
  all_chars P text = true → w ∈ split_ws text → all_chars P w = true.
Proof.
  revert w. induction text as [|c text IH]; intros w Hall Hw; simpl in *.
  - by apply elem_of_nil in Hw.
  - apply andb_true_iff in Hall as [Hc Hall].
    destruct (is_space c); [by apply IH|].
    destruct text as [|c' text'].
    + apply list_elem_of_singleton in Hw as ->. simpl. by rewrite Hc.
    + destruct (is_space c').
      * apply elem_of_cons in Hw as [->|Hw]; [simpl; by rewrite Hc | by apply IH].
      * destruct (split_ws (String c' text')) as [|w0 ws] eqn:E.
        -- apply list_elem_of_singleton in Hw as ->. simpl. by rewrite Hc.
        -- apply elem_of_cons in Hw as [->|Hw].
           ++ simpl. rewrite Hc. apply IH; [done | left].
           ++ apply IH; [done | by right].
Qed.

(** The pieces of [text.split()] are non-empty and free of whitespace. *)
Lemma split_ws_pieces (text w : string) :
  w ∈ split_ws text → w ≠ EmptyString ∧ all_chars (λ c, negb (is_space c)) w = true.
Proof.
  revert w. induction text as [|c text IH]; intros w Hw; simpl in *.
  - by apply elem_of_nil in Hw.
  - destruct (is_space c) eqn:Hc; [by apply IH|].
    destruct text as [|c' text'].
    + apply list_elem_of_singleton in Hw as ->. simpl. by rewrite Hc.
    + destruct (is_space c').
      * apply elem_of_cons in Hw as [->|Hw]; [simpl; by rewrite Hc | by apply IH].
      * destruct (split_ws (String c' text')) as [|w0 ws] eqn:E.
        -- apply list_elem_of_singleton in Hw as ->. simpl. by rewrite Hc.
        -- apply elem_of_cons in Hw as [->|Hw].
           ++ split; [done|]. simpl. rewrite Hc. apply IH. left.
           ++ apply IH. by right.
Qed.

Lemma all_chars_impl (P Q : ascii → bool) (s : string) :
  (∀ c, P c = true → Q c = true) → all_chars P s = true → all_chars Q s = true.
Proof.
  intros HPQ. induction s as [|c s IH]; simpl; [done|].
  rewrite !andb_true_iff. intros [? ?]. auto.
Qed.

Lemma not_space_not_blank (c : ascii) :
  negb (is_space c) = true → not_blank c = true.
Proof.
  unfold not_blank. destruct (Ascii.eqb_spec c " ") as [->|]; [|done].
  by vm_compute.
Qed.

Lemma split_ws_not_blank (text w : string) :
  w ∈ split_ws text → all_chars not_blank w = true.
Proof.
  intros Hw. apply split_ws_pieces in Hw as [_ Hw].
  revert Hw. apply all_chars_impl, not_space_not_blank.
Qed.

(** A blank-free word followed by a space and more text splits off whole. *)
Lemma split_space_word (w rest : string) :
  all_chars not_blank w = true →
  split_space (w ++ String " " rest) = w :: split_space rest.
Proof.
  induction w as [|c w IH]; intros Hw; simpl in *; [done|].
  apply andb_true_iff in Hw as [Hc Hw]. unfold not_blank in Hc.
  destruct (Ascii.eqb c " "); [done|]. by rewrite IH.
Qed.

Lemma split_space_single (w : string) :
  all_chars not_blank w = true → split_space w = [w].
Proof.
  induction w as [|c w IH]; intros Hw; simpl in *; [done|].
  apply andb_true_iff in Hw as [Hc Hw]. unfold not_blank in Hc.
  destruct (Ascii.eqb c " "); [done|]. by rewrite IH.
Qed.

(** [" ".join(ws).split(" ")] gives back a non-empty list of blank-free
    words, and [[""]] for the empty list. *)
Lemma split_space_join (ws : list string) :
  Forall (λ w, all_chars not_blank w = true) ws →
  split_space (join_space ws) = if decide (ws = []) then [EmptyString] else ws.
Proof.
  unfold join_space. induction 1 as [|w ws Hw Hws IH]; [done|].
  rewrite decide_False by done. destruct ws as [|w' ws].
  - simpl. by apply split_space_single.
  - change (String.concat " " (w :: w' :: ws))
      with (w +:+ String " " (String.concat " " (w' :: ws))).
    rewrite split_space_word by done.
    rewrite IH. by rewrite decide_False.
Qed.

Lemma regex_sub_not_punctuation (s : string) :
  all_chars not_punctuation (regex_sub s) = true.
Proof.
  induction s as [|c s IH]; simpl; [done|].
  destruct (is_punctuation c) eqn:E; [done|]. simpl.
  unfold not_punctuation at 1. by rewrite E.
Qed.

(** A line made of punctuation only is cleaned to the empty string. *)
Lemma regex_sub_punctuation (s : string) :
  all_chars is_punctuation s = true → regex_sub s = EmptyString.
Proof.
  induction s as [|c s IH]; simpl; [done|].
  intros [Hc Hs]%andb_true_iff. rewrite Hc. by apply IH.
Qed.

(** ** The estimator of a trained model *)

Section trained_estimator.
Variables (raw : list string) (min_freq : Z).

Local Abbreviation m := (train raw min_freq).

Lemma vocab_size_pos : 0 < vocab_size m.
Proof. pose proof (vocab_size_ge_2 (map preprocess raw) min_freq). unfold train. lia. Qed.

Lemma trained_denominator_pos (alpha : Q) (context : string) :
  (0 < alpha)%Q →
  (0 < inject_Z (count_of (unigrams m) context) + inject_Z (vocab_size m) * alpha)%Q.
Proof.
  intros Ha. apply denominator_pos; [|apply vocab_size_pos|done].
  apply count_of_unigrams_nonneg.
Qed.

(** For a context recorded in [unigrams] and [alpha > 0] the estimator
    returns the smoothed ratio, which lies in (0, 1]. *)
Lemma probability_known (alpha : Q) (target context : string) (u : Z) :
  (0 < alpha)%Q →
  unigrams m !! context = Some u →
  ∃ p, probability m alpha target context = Ok p
       ∧ p = ((inject_Z (count_of (bigrams m) (context, target)) + alpha)
              / (inject_Z u + inject_Z (vocab_size m) * alpha))%Q
       ∧ (0 < p)%Q ∧ (p <= 1)%Q.
Proof.
  intros Ha Hu.
  pose proof (trained_denominator_pos alpha context Ha) as Hden.
  pose proof (bigram_le_unigram (map preprocess raw) min_freq context target) as [Hb0 Hbu].
  fold m in Hb0, Hbu.
  unfold count_of in Hden, Hbu at 2. rewrite Hu in Hden, Hbu. simpl in Hden, Hbu.
  eexists. split; [|split; [reflexivity|]].
  { unfold probability. apply get_probability_known; [done|].
    intros E. rewrite E in Hden. by apply Qlt_irrefl in Hden. }
  assert (0 <= inject_Z (count_of (bigrams m) (context, target)))%Q
    by (change 0%Q with (inject_Z 0); by rewrite <- Zle_Qle).
  assert (inject_Z (count_of (bigrams m) (context, target)) <= inject_Z u)%Q
    by (by rewrite <- Zle_Qle).
  assert (1 <= inject_Z (vocab_size m))%Q.
  { change 1%Q with (inject_Z 1). rewrite <- Zle_Qle.
    pose proof vocab_size_pos. lia. }
  assert (0 <= (inject_Z (vocab_size m) - 1) * alpha)%Q
    by (apply Qmult_le_0_compat; Lqa.lra).
  split.
  - apply Qlt_shift_div_l; [done | Lqa.lra].
  - apply Qle_shift_div_r; [done | Lqa.lra].
Qed.
End trained_estimator.

(** ** The smoothed estimate *)

(** C1. For a context recorded in the unigram dictionary, the estimator
    returns (BigramCounts[(context,target)] + alpha) divided by
    (UnigramCounts[context] + |Vocabulary| * alpha), an absent bigram counting
    as 0 (the quotient being defined, that is, the denominator not zero).
    For the corpus ["the cat sat", "the dog ran"] with min_freq = 0 and
    alpha = 1 the vocabulary is {START, STOP, the, cat, sat, dog, ran}, of
    size 7, the bigram (START, the) and the unigram START both count 2, and
    probability("the", START) = (2+1)/(2+7*1) = 1/3. In a trained model with
    alpha > 0 the denominator is never zero, so the formula holds for every
    counted context. *)
Theorem get_probability_formula
    (target context : string) (unigram_dict : gmap string Z)
    (bigram_dict : gmap (string * string) Z) (alpha : Q) (size_of_vocab u : Z)
    (Hcontext : unigram_dict !! context = Some u)
    (Hden : ¬ (inject_Z u + inject_Z size_of_vocab * alpha == 0)%Q) :
  get_probability target context unigram_dict bigram_dict alpha size_of_vocab
    = Ok ((inject_Z (count_of bigram_dict (context, target)) + alpha)
          / (inject_Z u + inject_Z size_of_vocab * alpha))%Q
  ∧ (∀ raw min_freq a t c n,
       (0 < a)%Q → unigrams (train raw min_freq) !! c = Some n →
       probability (train raw min_freq) a t c
         = Ok ((inject_Z (count_of (bigrams (train raw min_freq)) (c, t)) + a)
               / (inject_Z n + inject_Z (vocab_size (train raw min_freq)) * a))%Q)
  ∧ (let m := train corpus_the 0 in
     vocab m = {[START_TOKEN; STOP_TOKEN; "the"; "cat"; "sat"; "dog"; "ran"]}%string
     ∧ vocab_size m = 7
     ∧ bigrams m !! (START_TOKEN, "the"%string) = Some 2
     ∧ unigrams m !! START_TOKEN = Some 2
     ∧ unigrams m !! "the"%string = Some 2
     ∧ probability m 1 "the" START_TOKEN
         = Ok ((inject_Z 2 + 1) / (inject_Z 2 + inject_Z 7 * 1))%Q
     ∧ ((inject_Z 2 + 1) / (inject_Z 2 + inject_Z 7 * 1) == 1 # 3)%Q).
Proof.
  split; [by apply get_probability_known|]. split.
  - intros raw min_freq a t c n Ha Hn.
    destruct (probability_known raw min_freq a t c n Ha Hn) as (p & Hp & -> & _).
    exact Hp.
  - repeat split; vm_compute; reflexivity.
Qed.

Lemma get_probability_formula_witness :
  get_probability "b" "a" {["a"%string := 3]} {[("a", "b")%string := 2]} (1 # 2) 4
    = Ok ((inject_Z 2 + (1 # 2)) / (inject_Z 3 + inject_Z 4 * (1 # 2)))%Q.
Proof.
  refine (proj1 (get_probability_formula "b" "a" {["a"%string := 3]}
                   {[("a", "b")%string := 2]} (1 # 2) 4 3 _ _)).
  - reflexivity.
  - vm_compute. discriminate.
Defined.

(** C2. A context that is not a key of the unigram dictionary makes the
    estimator raise KeyError instead of counting it as 0. It happens in
    the notebook's own pipeline: trained on ["a b"] with min_freq = 0 no
    word is rare, so "<UNK>" is neither counted nor in the vocabulary; the
    held-out line "c" is rewritten to "<UNK>", and the probability of any
    target after "<UNK>" is a KeyError. *)
Theorem unseen_context_raises :
  let m := train ["a b"]%string 0 in
  unigrams m !! UNK_TOKEN = None
  ∧ replace_text_dev (vocab m) (preprocess "c") = UNK_TOKEN
  ∧ probability m 1 STOP_TOKEN UNK_TOKEN = Raise KeyError
  ∧ ∀ target alpha, probability m alpha target UNK_TOKEN = Raise KeyError.
Proof.
  split; [|split; [|split]]; [vm_compute; reflexivity ..|].
  intros target alpha. by apply get_probability_unknown.
Qed.

(** C3. With alpha = 1 > 0 and a vocabulary that is not empty, the
    probability of a pair whose context has no unigram count is not a
    positive number but a KeyError: so for the context "<UNK>" after
    training on ["a b"], and so for the pair (START, STOP) of the
    boundary-only vocabulary of the empty corpus. *)
Theorem positivity_needs_counted_context :
  (let m := train ["a b"]%string 0 in
   vocab_size m = 4 ∧ "a"%string ∈ vocab m
   ∧ probability m 1 "a" UNK_TOKEN = Raise KeyError)
  ∧ (let m := train [] 0 in
     vocab m = {[START_TOKEN; STOP_TOKEN]}
     ∧ probability m 1 STOP_TOKEN START_TOKEN = Raise KeyError).
Proof.
  repeat split; vm_compute; reflexivity.
Qed.

(** ** Normalisation *)

Section normalisation.
Variables (raw : list string) (min_freq : Z).

Local Abbreviation m := (train raw min_freq).

Lemma row_sum_vocab (context : string) :
  row_sum (bigrams m) context
    = Zsum (map (λ t, count_of (bigrams m) (context, t)) (elements (vocab m))).
Proof.
  apply row_sum_lookup; [apply NoDup_elements|].
  intros t n Hn. apply elem_of_elements.
  by apply (lookup_bigrams_vocab (map preprocess raw) min_freq context t n).
Qed.

(** Counting keeps the rows balanced: the hypothesis of the
    normalisation property holds for every counted context other than
    [STOP_TOKEN], which is never a context. *)
Lemma row_sum_trained (context : string) :
  context ≠ STOP_TOKEN →
  row_sum (bigrams m) context = count_of (unigrams m) context.
Proof.
  intros Hc. rewrite row_sum_vocab.
  by apply (row_counts (map preprocess raw) min_freq).
Qed.

Lemma total_probability_balanced (alpha : Q) (context : string) (u : Z) :
  (0 < alpha)%Q →
  unigrams m !! context = Some u →
  row_sum (bigrams m) context = u →
  ∃ probs s,
    rmap (λ t, probability m alpha t context) (elements (vocab m)) = Ok probs
    ∧ length probs = length (elements (vocab m))
    ∧ Forall (λ p, 0 < p ∧ p <= 1)%Q probs
    ∧ total_probability m alpha context = Ok s ∧ s = Qsum probs ∧ (s == 1)%Q.
Proof.
  intros Ha Hu Hrow.
  set (den := (inject_Z u + inject_Z (vocab_size m) * alpha)%Q).
  set (g := λ t, ((inject_Z (count_of (bigrams m) (context, t)) + alpha) / den)%Q).
  assert (Hg : ∀ t, probability m alpha t context = Ok (g t)
                    ∧ (0 < g t)%Q ∧ (g t <= 1)%Q).
  { intros t. destruct (probability_known raw min_freq alpha t context u Ha Hu)
      as (p & Hp & -> & Hpos & Hle). done. }
  assert (Hmap : rmap (λ t, probability m alpha t context) (elements (vocab m))
                 = Ok (map g (elements (vocab m))))
    by (apply rmap_ok; intros t _; apply Hg).
  exists (map g (elements (vocab m))), (Qsum (map g (elements (vocab m)))).
  split; [done|]. split; [by rewrite length_map|]. split.
  { apply Forall_forall. intros p (t & -> & _)%elem_of_map. apply Hg. }
  split; [unfold total_probability; by rewrite Hmap|]. split; [done|].
  unfold g. rewrite Qsum_scaled, <- row_sum_vocab, Hrow.
  change (Z.of_nat (length (elements (vocab m)))) with (vocab_size m).
  fold den. apply Qmult_inv_r.
  pose proof (trained_denominator_pos raw min_freq alpha context Ha) as Hden.
  unfold count_of in Hden. rewrite Hu in Hden. simpl in Hden. fold den in Hden.
  intros E. rewrite E in Hden. by apply Qlt_irrefl in Hden.
Qed.
End normalisation.

(** C4. In a trained model, for every context whose bigram counts, summed
    over all targets, equal its unigram count, and for every alpha > 0, the
    probabilities of all vocabulary tokens after that context sum to
    exactly 1 (in exact rational arithmetic). *)
Theorem total_probability_is_one
    (raw : list string) (min_freq : Z) (alpha : Q) (context : string) (u : Z)
    (Halpha : (0 < alpha)%Q)
    (Hcontext : unigrams (train raw min_freq) !! context = Some u)
    (Hrow : row_sum (bigrams (train raw min_freq)) context = u) :
  ∃ s, total_probability (train raw min_freq) alpha context = Ok s ∧ (s == 1)%Q.
Proof.
  destruct (total_probability_balanced raw min_freq alpha context u Halpha Hcontext Hrow)
    as (probs & s & _ & _ & _ & Hs & _ & H1).
  eauto.
Qed.

Lemma total_probability_is_one_witness :
  ∃ s, total_probability (train corpus_the 0) 1 START_TOKEN = Ok s ∧ (s == 1)%Q.
Proof.
  refine (total_probability_is_one corpus_the 0 1 START_TOKEN 2 _ _ _).
  - reflexivity.
  - vm_compute. reflexivity.
  - vm_compute. reflexivity.
Defined.

(** ** Configuration of alpha *)

(** C9 as stated fails: with alpha = 0, and with alpha = -1, the model
    trained on ["the cat sat", "the dog ran"] still computes
    "probabilities", 0 for the unseen bigram (START, cat) and -1/5 for
    (START, the). *)
Lemma nonpositive_alpha_is_computed :
  ¬ (∀ alpha target context p,
       (alpha <= 0)%Q → probability (train corpus_the 0) alpha target context ≠ Ok p)
  ∧ probability (train corpus_the 0) 0 "cat" START_TOKEN = Ok (0 # 2)%Q
  ∧ probability (train corpus_the 0) (-1) "the" START_TOKEN = Ok (-1 # 5)%Q.
Proof.
  split; [|split; vm_compute; reflexivity].
  intros Hrej. apply (Hrej 0%Q "cat"%string START_TOKEN (0 # 2)%Q).
  - vm_compute. discriminate.
  - vm_compute. reflexivity.
Qed.

(** C9, amended. The code never validates alpha. For alpha <= 0 and a
    context with unigram count u the estimator goes through the same
    formula: it raises ZeroDivisionError when u + |Vocabulary| * alpha is
    zero and otherwise returns (b + alpha) / (u + |Vocabulary| * alpha),
    which is not positive when the bigram is unseen and the denominator is
    positive. *)
Theorem alpha_is_not_validated
    (target context : string) (unigram_dict : gmap string Z)
    (bigram_dict : gmap (string * string) Z) (alpha : Q) (size_of_vocab u : Z)
    (Halpha : (alpha <= 0)%Q)
    (Hcontext : unigram_dict !! context = Some u) :
  let den := (inject_Z u + inject_Z size_of_vocab * alpha)%Q in
  let p := ((inject_Z (count_of bigram_dict (context, target)) + alpha) / den)%Q in
  ((den == 0)%Q →
   get_probability target context unigram_dict bigram_dict alpha size_of_vocab
     = Raise ZeroDivisionError)
  ∧ (¬ (den == 0)%Q →
     get_probability target context unigram_dict bigram_dict alpha size_of_vocab
       = Ok p)
  ∧ ((0 < den)%Q → bigram_dict !! (context, target) = None → (p <= 0)%Q).
Proof.
  intros den p. split; [|split].
  - intros Hden. by apply (get_probability_zero_den _ _ _ _ _ _ u).
  - intros Hden. by apply get_probability_known.
  - intros Hden Hb. unfold p, count_of. rewrite Hb. simpl.
    apply Qle_shift_div_r; [done|]. change (inject_Z 0) with 0%Q. Lqa.lra.
Qed.

Lemma alpha_is_not_validated_witness :
  get_probability "b" "a" {["a"%string := 3]} ∅ (-1) 2 = Ok ((inject_Z 0 + -1) / (inject_Z 3 + inject_Z 2 * -1))%Q
  ∧ ((inject_Z 0 + -1) / (inject_Z 3 + inject_Z 2 * -1) <= 0)%Q.
Proof.
  assert (Ha : (-1 <= 0)%Q) by (vm_compute; discriminate).
  assert (Hu : ({["a"%string := 3]} : gmap string Z) !! "a"%string = Some 3)
    by reflexivity.
  pose proof (alpha_is_not_validated "b" "a" {["a"%string := 3]} ∅ (-1) 2 3 Ha Hu)
    as (_ & Hok & Hle).
  split.
  - apply Hok. vm_compute. discriminate.
  - apply Hle; reflexivity.
Defined.

(** ** Boundary tokens and the denominator *)

(** C10. For every training corpus, the empty one included, the vocabulary
    contains START and STOP and so has at least two tokens; hence for every
    alpha > 0 and every context the denominator
    UnigramCounts[context] + |Vocabulary| * alpha (an uncounted context
    counting 0) is strictly positive, and the estimator never raises
    ZeroDivisionError. *)
Theorem vocabulary_boundaries_and_denominator
    (raw : list string) (min_freq : Z) (alpha : Q) (target context : string)
    (Halpha : (0 < alpha)%Q) :
  let m := train raw min_freq in
  START_TOKEN ∈ vocab m ∧ STOP_TOKEN ∈ vocab m ∧ 2 ≤ vocab_size m
  ∧ (0 < inject_Z (count_of (unigrams m) context) + inject_Z (vocab_size m) * alpha)%Q
  ∧ (∀ u, unigrams m !! context = Some u →
          (0 < inject_Z u + inject_Z (vocab_size m) * alpha)%Q)
  ∧ probability m alpha target context ≠ Raise ZeroDivisionError.
Proof.
  intros m.
  pose proof (trained_denominator_pos raw min_freq alpha context Halpha) as Hden.
  fold m in Hden.
  split; [apply START_in_vocab|]. split; [apply STOP_in_vocab|].
  split; [apply vocab_size_ge_2|]. split; [done|]. split.
  - intros u Hu. unfold count_of in Hden. by rewrite Hu in Hden.
  - destruct (unigrams m !! context) as [u|] eqn:Hu.
    + destruct (probability_known raw min_freq alpha target context u Halpha Hu)
        as (p & Hp & _). fold m in Hp. by rewrite Hp.
    + unfold probability. by rewrite get_probability_unknown.
Qed.

Lemma vocabulary_boundaries_and_denominator_witness :
  let m := train [] 0 in
  START_TOKEN ∈ vocab m ∧ STOP_TOKEN ∈ vocab m ∧ 2 ≤ vocab_size m
  ∧ (0 < inject_Z (count_of (unigrams m) START_TOKEN) + inject_Z (vocab_size m) * 1)%Q
  ∧ (∀ u, unigrams m !! START_TOKEN = Some u →
          (0 < inject_Z u + inject_Z (vocab_size m) * 1)%Q)
  ∧ probability m 1 STOP_TOKEN START_TOKEN ≠ Raise ZeroDivisionError.
Proof.
  refine (vocabulary_boundaries_and_denominator [] 0 1 STOP_TOKEN START_TOKEN _).
  reflexivity.
Defined.

(** ** Perplexity *)

Lemma ln_Q2R_nonpos (p : Q) : (0 < p)%Q → (p <= 1)%Q → (ln (Q2R p) <= 0)%R.
Proof.
  intros Hpos Hle. apply Qlt_Rlt in Hpos. apply Qle_Rle in Hle.
  rewrite RMicromega.Q2R_0 in Hpos. rewrite RMicromega.Q2R_1 in Hle.
  destruct (Rle_lt_or_eq_dec _ _ Hle) as [Hlt|Heq].
  - apply (ln_increasing _ _ Hpos) in Hlt. rewrite ln_1 in Hlt. Lra.lra.
  - rewrite Heq, ln_1. Lra.lra.
Qed.

Section perplexity.
Variables (raw : list string) (min_freq : Z) (alpha : Q).
Hypothesis Halpha : (0 < alpha)%Q.

Local Abbreviation m := (train raw min_freq).

(** While every context met is a counted token, the loop ends normally
    and keeps [log_sum] non-negative. *)
Lemma log_sum_loop_nonneg (pairs : list (string * string)) (log_sum : R) :
  (∀ p, p ∈ pairs → is_Some (unigrams m !! p.1)) →
  (0 <= log_sum)%R →
  ∃ s, log_sum_loop pairs (unigrams m) (bigrams m) alpha (vocab_size m) log_sum = Ok s
       ∧ (0 <= s)%R.
Proof.
  revert log_sum. induction pairs as [|[c t] pairs IH]; intros log_sum Hctx Hacc.
  - exists log_sum. done.
  - destruct (Hctx (c, t)) as [u Hu]; [left|]. simpl in Hu.
    destruct (probability_known raw min_freq alpha t c u Halpha Hu)
      as (p & Hp & _ & Hpos & Hle).
    cbn [log_sum_loop]. unfold probability in Hp. rewrite Hp. cbn [rbind].
    apply IH.
    + intros q Hq. apply Hctx. by right.
    + pose proof (ln_Q2R_nonpos p Hpos Hle). Lra.lra.
Qed.

(** When every token of the wrapped text but the closing STOP is counted,
    the perplexity is returned and is at least 1. *)
Lemma calculate_perplexity_ge_1 (text : string) :
  (∀ c, c ∈ START_TOKEN :: split_space text → is_Some (unigrams m !! c)) →
  ∃ v, calculate_perplexity text (unigrams m) (bigrams m) alpha (vocab_size m) = Ok v
       ∧ (1 <= v)%R.
Proof.
  intros Hctx. unfold calculate_perplexity.
  destruct (log_sum_loop_nonneg (adjacent (wrap text)) 0%R) as (s & Hs & Hs0).
  - intros p Hp. apply Hctx. rewrite <- removelast_wrap, <- map_fst_adjacent.
    apply elem_of_map. eauto.
  - Lra.lra.
  - rewrite Hs. cbn [rbind]. eexists. split; [done|].
    assert (Hlen : 2 ≤ Z.of_nat (length (wrap text)) - 1).
    { unfold wrap. cbn [app length]. rewrite length_app. cbn [length].
      pose proof (split_space_nonempty text).
      destruct (split_space text); [done|]. cbn [length]. lia. }
    apply IZR_le in Hlen.
    set (n := IZR (Z.of_nat (length (wrap text)) - 1)) in *.
    assert (0 <= s / n)%R.
    { unfold Rdiv. apply Rmult_le_pos; [done|].
      apply Rlt_le, Rinv_0_lt_compat. Lra.lra. }
    rewrite <- exp_0.
    destruct (Rle_lt_or_eq_dec _ _ H) as [Hlt|<-]; [|Lra.lra].
    apply Rlt_le. by apply exp_increasing.
Qed.

(** The well-formed case of the evaluator: a training corpus with at
    least one line, "<UNK>" in the vocabulary, and a held-out line with at
    least one word. *)
Lemma evaluate_ge_1 (line : string) :
  raw ≠ [] →
  UNK_TOKEN ∈ vocab m →
  split_ws (preprocess line) ≠ [] →
  ∃ v, evaluate m alpha line = Ok v ∧ (1 <= v)%R.
Proof.
  intros Hraw Hunk Hline. unfold evaluate. apply calculate_perplexity_ge_1.
  assert (Hne : map preprocess raw ≠ []) by (by destruct raw).
  intros c Hc. apply (unigrams_vocab (map preprocess raw) min_freq c Hne).
  apply elem_of_cons in Hc as [->|Hc]; [apply START_in_vocab|].
  unfold replace_text_dev in Hc. rewrite split_space_join in Hc.
  - rewrite decide_False in Hc by (by destruct (split_ws (preprocess line))).
    apply elem_of_map in Hc as (t & -> & Ht).
    case_decide as Hv; done.
  - apply Forall_forall. intros w (t & -> & Ht)%elem_of_map.
    case_decide; [by vm_compute | by apply split_ws_not_blank in Ht].
Qed.
End perplexity.

(** C5. With alpha = 1 > 0, counts built from the training corpus ["a b"]
    (min_freq = 0) and a vocabulary of size 4, the evaluator does not
    return a perplexity for the held-out line "c": the line is rewritten to
    "<UNK>", which has no unigram count, and scoring the pair
    ("<UNK>", STOP) raises KeyError. *)
Theorem evaluator_raises_on_unseen_word :
  let m := train ["a b"]%string 0 in
  vocab_size m = 4
  ∧ replace_text_dev (vocab m) (preprocess "c") = UNK_TOKEN
  ∧ wrap UNK_TOKEN = [START_TOKEN; UNK_TOKEN; STOP_TOKEN]
  ∧ unigrams m !! UNK_TOKEN = None
  ∧ evaluate m 1 "c" = Raise KeyError.
Proof. repeat split; vm_compute; reflexivity. Qed.

(** ** Empty and punctuation-only lines *)

(** Every line that is empty or made of punctuation only is cleaned to the
    empty string, and wrapping it gives three tokens, the middle one the
    empty string. *)
Lemma punctuation_line_tokens (line : string) :
  all_chars is_punctuation (first_line line) = true →
  wrap (preprocess line) = [START_TOKEN; EmptyString; STOP_TOKEN].
Proof. intros Hline. unfold preprocess. by rewrite regex_sub_punctuation. Qed.

(** C6. The empty line and the punctuation-only line "?!..." are wrapped
    into [START, "", STOP], with an empty-string token, not into
    [START, STOP]. Counting accepts the sequence and records the key "";
    perplexity scoring of the empty held-out line against the model
    trained on ["the cat sat", "the dog ran"] raises KeyError at the pair
    ("", STOP). *)
Theorem empty_line_has_empty_token :
  wrap (preprocess "") = [START_TOKEN; EmptyString; STOP_TOKEN]
  ∧ wrap (preprocess "?!...") = [START_TOKEN; EmptyString; STOP_TOKEN]
  ∧ count_unigrams (preprocess "") ∅
      = {[START_TOKEN := 1; EmptyString := 1; STOP_TOKEN := 1]}
  ∧ count_bigrams (preprocess "") ∅
      = {[(START_TOKEN, EmptyString) := 1; (EmptyString, STOP_TOKEN) := 1]}
  ∧ EmptyString ∈ vocab (train [""]%string 0)
  ∧ evaluate (train corpus_the 0) 1 "" = Raise KeyError.
Proof. repeat split; vm_compute; reflexivity. Qed.

(** ** Rare words *)

Lemma elem_of_find_low_freq (words : gmap string Z) (min_freq : Z) (t : string) :
  t ∈ find_low_freq words min_freq ↔ ∃ n, words !! t = Some n ∧ n ≤ min_freq.
Proof.
  unfold find_low_freq. rewrite elem_of_dom. unfold is_Some.
  setoid_rewrite map_lookup_filter_Some. done.
Qed.

Lemma all_words_counted (hs : list string) (t : string) :
  is_Some (all_words hs !! t) ↔ t ∈ counted_tokens hs.
Proof.
  unfold all_words. rewrite foldl_count_unigrams, lookup_counted.
  case_decide; split; try done.
Qed.

Lemma UNK_is_punctuated : all_chars not_punctuation UNK_TOKEN = false.
Proof. reflexivity. Qed.

(** A word of a cleaned line is never the string "<UNK>". *)
Lemma body_word_not_UNK (r t : string) : t ∈ split_ws (preprocess r) → t ≠ UNK_TOKEN.
Proof.
  intros Ht ->. apply all_chars_split_ws with (P := not_punctuation) in Ht.
  - by rewrite UNK_is_punctuated in Ht.
  - apply regex_sub_not_punctuation.
Qed.

Lemma split_space_replace_text_train (low : gset string) (h : string) :
  split_space (replace_text_train low h) =
    if decide (split_ws h = []) then [EmptyString]
    else map (λ t, if decide (t ∈ low) then UNK_TOKEN else t) (split_ws h).
Proof.
  unfold replace_text_train. rewrite split_space_join.
  - destruct (split_ws h); done.
  - apply Forall_forall. intros w (t & -> & Ht)%elem_of_map.
    case_decide; [by vm_compute | by apply split_ws_not_blank in Ht].
Qed.

Section rare_words.
Variables (raw : list string) (min_freq : Z).

Local Abbreviation lines := (map preprocess raw).
Local Abbreviation m := (train raw min_freq).

Lemma low_freq_not_UNK (t : string) : t ∈ low_freq m → t ≠ UNK_TOKEN.
Proof.
  intros Ht ->. apply elem_of_find_low_freq in Ht as (n & Hn & _).
  assert (Hc : UNK_TOKEN ∈ counted_tokens lines) by (apply all_words_counted; eauto).
  apply elem_of_counted_tokens in Hc as (h & Hh & Hc).
  apply elem_of_map in Hh as (r & -> & _).
  apply elem_of_wrap in Hc as [Hc|[Hc|Hc]]; [done| |done].
  apply all_chars_split_space with (P := not_punctuation) in Hc.
  - by rewrite UNK_is_punctuated in Hc.
  - apply regex_sub_not_punctuation.
Qed.

(** The words of a rewritten line. *)
Lemma elem_of_clean_line (k : string) :
  (∃ h, h ∈ headlines_train_clean m ∧ k ∈ split_space h) ↔
  ∃ r, r ∈ raw ∧
    ((split_ws (preprocess r) = [] ∧ k = EmptyString) ∨
     ∃ t, t ∈ split_ws (preprocess r) ∧
          k = if decide (t ∈ low_freq m) then UNK_TOKEN else t).
Proof.
  cbn [headlines_train_clean train train_clean]. split.
  - intros (h & Hh & Hk). apply elem_of_map in Hh as (l & -> & Hl).
    apply elem_of_map in Hl as (r & -> & Hr). exists r. split; [done|].
    rewrite split_space_replace_text_train in Hk. case_decide as He.
    + left. by apply list_elem_of_singleton in Hk.
    + right. apply elem_of_map in Hk as (t & -> & Ht). eauto.
  - intros (r & Hr & Hk).
    exists (replace_text_train (low_freq m) (preprocess r)). split.
    { apply elem_of_map. eexists. split; [done|]. apply elem_of_map. eauto. }
    rewrite split_space_replace_text_train.
    destruct Hk as [[He ->]|(t & Ht & ->)].
    + rewrite He. left.
    + destruct (decide (split_ws (preprocess r) = [])) as [He|_].
      * rewrite He in Ht. by apply elem_of_nil in Ht.
      * apply elem_of_map. eauto.
Qed.

Lemma rare_word_not_in_vocab (t : string) :
  t ∈ low_freq m → t ≠ START_TOKEN → t ≠ STOP_TOKEN → t ≠ EmptyString →
  t ∉ vocab m.
Proof.
  intros Hlow Hstart Hstop Hempty Hv.
  apply elem_of_vocab in Hv as [?|[?|Hv]]; [done|done|].
  apply elem_of_clean_line in Hv as (r & Hr & [[_ ?]|(t' & Ht' & Ht)]); [done|].
  case_decide as Hl.
  - by apply low_freq_not_UNK in Hlow.
  - by subst t'.
Qed.

Lemma kept_word_in_vocab (r t : string) :
  r ∈ raw → t ∈ split_ws (preprocess r) → t ∉ low_freq m → t ∈ vocab m.
Proof.
  intros Hr Ht Hlow. apply elem_of_vocab. right; right.
  apply elem_of_clean_line. exists r. split; [done|]. right.
  exists t. split; [done|]. by rewrite decide_False.
Qed.

Lemma UNK_in_vocab_iff :
  UNK_TOKEN ∈ vocab m ↔
  ∃ r t, r ∈ raw ∧ t ∈ split_ws (preprocess r) ∧ t ∈ low_freq m.
Proof.
  split.
  - intros Hv. apply elem_of_vocab in Hv as [?|[?|Hv]]; [done|done|].
    apply elem_of_clean_line in Hv as (r & Hr & [[_ ?]|(t & Ht & Hk)]); [done|].
    case_decide as Hl; [eauto|].
    subst t. by apply body_word_not_UNK in Ht.
  - intros (r & t & Hr & Ht & Hlow). apply elem_of_vocab. right; right.
    apply elem_of_clean_line. exists r. split; [done|]. right.
    exists t. split; [done|]. by rewrite decide_True.
Qed.
End rare_words.

(** X27. On a corpus whose cleaned lines are single-spaced the two splits
    see the same words, and the rewriting does what the counts say: a word
    of a line is in the rare set, and is replaced by "<UNK>", exactly when
    its pre-collapse count is at most [min_freq]; it is in the vocabulary
    exactly when it is not rare; and "<UNK>" is in the vocabulary exactly
    when some word is rare. *)
Theorem rare_words_collapse_single_spaced (raw : list string) (min_freq : Z)
    (Hspaced : ∀ r, r ∈ raw → single_spaced (preprocess r)) :
  let m := train raw min_freq in
  let words := all_words (map preprocess raw) in
  (∀ r t, r ∈ raw → t ∈ split_space (preprocess r) →
     (t ∈ low_freq m ↔ count_of words t ≤ min_freq)
     ∧ (t ∈ vocab m ↔ min_freq < count_of words t))
  ∧ (∀ r, r ∈ raw →
       split_space (replace_text_train (low_freq m) (preprocess r))
       = map (λ t, if decide (count_of words t ≤ min_freq) then UNK_TOKEN else t)
             (split_space (preprocess r)))
  ∧ (UNK_TOKEN ∈ vocab m ↔
     ∃ r t, r ∈ raw ∧ t ∈ split_space (preprocess r) ∧ count_of words t ≤ min_freq).
Proof.
  intros m words. subst m words.
  assert (Hkey : ∀ r t, r ∈ raw → t ∈ split_space (preprocess r) →
            (t ∈ low_freq (train raw min_freq)
             ↔ count_of (all_words (map preprocess raw)) t ≤ min_freq)).
  { intros r t Hr Ht. cbn [low_freq train train_clean].
    rewrite elem_of_find_low_freq.
    assert (Hc : is_Some (all_words (map preprocess raw) !! t)).
    { apply all_words_counted, elem_of_counted_tokens. exists (preprocess r).
      split; [apply elem_of_map; eauto | apply elem_of_wrap; by right; left]. }
    destruct Hc as [n Hn]. unfold count_of. rewrite Hn. cbn [default]. split.
    - intros (n' & [= <-] & Hle). done.
    - intros Hle. eauto. }
  split; [|split].
  - intros r t Hr Ht. split; [by apply (Hkey r)|].
    assert (Hw : t ∈ split_ws (preprocess r)) by (by rewrite <- (Hspaced r Hr)).
    split.
    + intros Hv. destruct (decide (t ∈ low_freq (train raw min_freq))) as [Hlow|Hlow].
      * exfalso. revert Hv. apply rare_word_not_in_vocab; [done | | |].
        -- intros ->. apply all_chars_split_ws with (P := not_punctuation) in Hw;
             [done | apply regex_sub_not_punctuation].
        -- intros ->. apply all_chars_split_ws with (P := not_punctuation) in Hw;
             [done | apply regex_sub_not_punctuation].
        -- by apply split_ws_pieces in Hw as [? _].
      * rewrite (Hkey r t Hr Ht) in Hlow. lia.
    + intros Hgt. apply (kept_word_in_vocab raw min_freq r t Hr Hw).
      rewrite (Hkey r t Hr Ht). lia.
  - intros r Hr. rewrite split_space_replace_text_train.
    rewrite <- (Hspaced r Hr).
    rewrite decide_False by apply split_space_nonempty.
    apply map_ext_in. intros t Ht%list_elem_of_In.
    destruct (decide (t ∈ low_freq (train raw min_freq))) as [Hlow|Hlow];
      rewrite (Hkey r t Hr Ht) in Hlow.
    + by rewrite decide_True.
    + by rewrite decide_False.
  - rewrite UNK_in_vocab_iff. split.
    + intros (r & t & Hr & Ht & Hlow). exists r, t. split; [done|].
      rewrite <- (Hspaced r Hr) in Ht. split; [done|]. by apply (Hkey r).
    + intros (r & t & Hr & Ht & Hle). exists r, t. split; [done|].
      split; [by rewrite <- (Hspaced r Hr) | by apply (Hkey r)].
Qed.

Lemma rare_words_collapse_single_spaced_witness :
  ("b"%string ∈ low_freq (train corpus_ab 1))
  ∧ ("b"%string ∉ vocab (train corpus_ab 1))
  ∧ "a"%string ∈ vocab (train corpus_ab 1)
  ∧ UNK_TOKEN ∈ vocab (train corpus_ab 1).
Proof.
  assert (Hspaced : ∀ r, r ∈ corpus_ab → single_spaced (preprocess r)).
  { intros r [->|Hr]%elem_of_cons; [by vm_compute|].
    apply list_elem_of_singleton in Hr as ->. by vm_compute. }
  destruct (rare_words_collapse_single_spaced corpus_ab 1 Hspaced)
    as (Hword & _ & Hunk).
  assert (Hab : "a b"%string ∈ corpus_ab) by left.
  assert (Hb : "b"%string ∈ split_space (preprocess "a b")) by (right; left).
  assert (Ha : "a"%string ∈ split_space (preprocess "a b")) by left.
  destruct (Hword "a b"%string "b"%string Hab Hb) as [Hlow Hvoc].
  destruct (Hword "a b"%string "a"%string Hab Ha) as [_ Hvoca].
  split; [apply Hlow; vm_compute; discriminate|].
  split; [intros Hin; apply Hvoc in Hin; revert Hin; vm_compute; discriminate|].
  split; [apply Hvoca; vm_compute; reflexivity|].
  apply Hunk. exists "a b"%string, "b"%string.
  split; [done|]. split; [done|]. vm_compute. discriminate.
Defined.

(** C7. On the scenario of the claim the code agrees with it: with
    min_freq = 1 on ["a b", "a c"], "a" (count 2) is kept, "b" and "c"
    (count 1 each) are replaced, and the vocabulary is
    {START, STOP, a, UNKNOWN}. On the corpus of two lines "x<TAB>y" with
    min_freq = 5 it does not: the counts are taken on the pieces of
    [split(" ")], so the only counted body token is "x<TAB>y", while the
    rewriting works on the pieces of [split()], the words "x" and "y",
    which are not keys of the counts and so are never rare. Each of them
    occurs twice, which is at most min_freq, and yet neither is replaced,
    both are in the vocabulary, and UNKNOWN is not. *)
Theorem rare_words_survive_a_tab :
  (let m := train corpus_ab 1 in
   all_words (map preprocess corpus_ab)
     = {[START_TOKEN := 2; STOP_TOKEN := 2; "a" := 2; "b" := 1; "c" := 1]}%string
   ∧ low_freq m = {["b"; "c"]}%string
   ∧ headlines_train_clean m = ["a <UNK>"; "a <UNK>"]%string
   ∧ vocab m = {[START_TOKEN; STOP_TOKEN; "a"%string; UNK_TOKEN]})
  ∧ (let m := train corpus_tab 5 in
     all_words (map preprocess corpus_tab)
       = {[START_TOKEN := 2; STOP_TOKEN := 2; x_tab_y := 2]}
     ∧ low_freq m = {[START_TOKEN; STOP_TOKEN; x_tab_y]}
     ∧ headlines_train_clean m = ["x y"; "x y"]%string
     ∧ unigrams m !! "x"%string = Some 2
     ∧ unigrams m !! "y"%string = Some 2
     ∧ vocab m = {[START_TOKEN; STOP_TOKEN; "x"; "y"]}%string
     ∧ (UNK_TOKEN ∉ vocab m)
     ∧ ¬ single_spaced (preprocess x_tab_y)).
Proof.
  split.
  - repeat split; vm_compute; reflexivity.
  - split; [vm_compute; reflexivity|]. split; [vm_compute; reflexivity|].
    split; [vm_compute; reflexivity|]. split; [vm_compute; reflexivity|].
    split; [vm_compute; reflexivity|]. split; [vm_compute; reflexivity|].
    split.
    + apply (bool_decide_unpack (UNK_TOKEN ∉ vocab (train corpus_tab 5))).
      vm_compute. exact I.
    + unfold single_spaced. vm_compute. discriminate.
Qed.

(** ** Generation *)

Lemma Qsum_removelast_last (l : list Q) (i : nat) (p : Q) :
  l !! i = Some p → S i = length l → (Qsum l == Qsum (removelast l) + p)%Q.
Proof.
  revert i. induction l as [|x [|y l] IH]; intros i Hi Hlen; [done| |].
  - destruct i; [|done]. injection Hi as ->.
    change (Qsum [p]) with (p + 0)%Q. change (Qsum (removelast [p])) with 0%Q. ring.
  - destruct i as [|i]; [done|].
    change (removelast (x :: y :: l)) with (x :: removelast (y :: l)).
    rewrite (Qsum_cons x (y :: l)), (Qsum_cons x (removelast (y :: l))).
    rewrite (IH i); [ring | exact Hi | cbn [length] in *; lia].
Qed.

Lemma Qsum_removelast_le (l : list Q) :
  Forall (λ p, 0 <= p)%Q l → (Qsum (removelast l) <= Qsum l)%Q.
Proof.
  induction l as [|x [|y l] IH]; intros Hl.
  - apply Qle_refl.
  - apply Forall_cons in Hl as [Hx _].
    change (Qsum [x]) with (x + 0)%Q. change (Qsum (removelast [x])) with 0%Q. Lqa.lra.
  - apply Forall_cons in Hl as [Hx Hl]. specialize (IH Hl).
    change (removelast (x :: y :: l)) with (x :: removelast (y :: l)).
    rewrite (Qsum_cons x (y :: l)), (Qsum_cons x (removelast (y :: l))). Lqa.lra.
Qed.

(** Weights in (0, 1] that sum to 1 pass numpy's check, and every index
    can be drawn. *)
Lemma draw_possible_normalised (probs : list Q) (i : nat) (p : Q) :
  Forall (λ p, 0 < p ∧ p <= 1)%Q probs →
  (Qsum probs == 1)%Q →
  probs !! i = Some p →
  pvals_ok probs = true ∧ draw_possible probs i = true.
Proof.
  intros Hall Hsum Hi.
  assert (Hok : pvals_ok probs = true).
  { unfold pvals_ok. apply andb_true_iff. split.
    - apply forallb_forall. intros q Hq%list_elem_of_In.
      rewrite Forall_forall in Hall. destruct (Hall q Hq) as [H0 H1].
      apply andb_true_iff. split; apply Qle_bool_iff; [by apply Qlt_le_weak | done].
    - apply Qle_bool_iff. rewrite <- Hsum. apply Qsum_removelast_le.
      eapply Forall_impl; [done|]. intros q [? _]. by apply Qlt_le_weak. }
  split; [done|]. unfold draw_possible. rewrite Hok, Hi. cbn [andb].
  assert (Hp : (0 < p)%Q).
  { rewrite Forall_forall in Hall. apply (Hall p). by eapply list_elem_of_lookup_2. }
  case_decide as Hlast; apply negb_true_iff, not_true_iff_false;
    rewrite Qle_bool_iff; intros Hle.
  - pose proof (Qsum_removelast_last probs i p Hi Hlast) as Hsplit.
    rewrite Hsum in Hsplit. Lqa.lra.
  - Lqa.lra.
Qed.

Lemma generate_step_inv (m : model) (alpha : Q) (sent sent' : list string) (i : nat) :
  generate_step m alpha sent i = Ok sent' →
  ∃ w, elements (vocab m) !! i = Some w ∧ sent' = sent ++ [w].
Proof.
  unfold generate_step, sample_word. destruct (step_probs _ _ _) as [probs|]; [|done].
  cbn [rbind]. destruct (pvals_ok probs); [|done].
  destruct (elements (vocab m) !! i) as [w|]; [|done].
  cbn [rbind]. intros [= <-]. eauto.
Qed.

(** While the loop runs, [sent] starts with START and holds vocabulary
    tokens only. *)
Lemma generating_invariant (m : model) (alpha : Q) (sent : list string) :
  START_TOKEN ∈ vocab m →
  generating m alpha sent →
  head sent = Some START_TOKEN ∧ Forall (λ w, w ∈ vocab m) sent.
Proof.
  intros Hstart. induction 1 as [|sent sent' probs i Hgen [IHhd IHall] Hlast Hprobs Hdraw Hstep].
  - split; [done|]. by apply Forall_singleton.
  - apply generate_step_inv in Hstep as (w & Hw & ->). split.
    + destruct sent; [done | exact IHhd].
    + apply Forall_app. split; [done|]. apply Forall_singleton.
      apply elem_of_elements. by eapply list_elem_of_lookup_2.
Qed.

Lemma last_elem_of {A} (l : list A) (d : A) : l ≠ [] → List.last l d ∈ l.
Proof.
  induction l as [|x [|y l] IH]; intros Hne; [done | left |].
  right. change (List.last (x :: y :: l) d) with (List.last (y :: l) d). by apply IH.
Qed.

Section generator.
Variables (raw : list string) (min_freq : Z) (alpha : Q).
Hypothesis Hraw : raw ≠ [].
Hypothesis Halpha : (0 < alpha)%Q.

Local Abbreviation m := (train raw min_freq).

(** After a context of the vocabulary other than STOP, the candidate
    weights are defined, pass the check of the multinomial draw, and the
    draw can come out at any candidate. *)
Lemma step_probs_drawable (sent : list string) (i : nat) (w : string) :
  List.last sent EmptyString ∈ vocab m →
  List.last sent EmptyString ≠ STOP_TOKEN →
  elements (vocab m) !! i = Some w →
  ∃ probs, step_probs m alpha sent = Ok probs
           ∧ draw_possible probs i = true
           ∧ generate_step m alpha sent i = Ok (sent ++ [w]).
Proof.
  intros Hv Hstop Hi.
  assert (Hne : map preprocess raw ≠ []) by (by destruct raw).
  apply (unigrams_vocab (map preprocess raw) min_freq _ Hne) in Hv as [u Hu].
  fold m in Hu.
  assert (Hrow : row_sum (bigrams m) (List.last sent EmptyString) = u).
  { rewrite row_sum_trained by done. unfold count_of. by rewrite Hu. }
  destruct (total_probability_balanced raw min_freq alpha _ u Halpha Hu Hrow)
    as (probs & s & Hprobs & Hlen & Hall & _ & -> & Hsum).
  exists probs. split; [exact Hprobs|].
  destruct (lookup_lt_is_Some_2 probs i) as [p Hp].
  { rewrite Hlen. by eapply lookup_lt_Some. }
  destruct (draw_possible_normalised probs i p Hall Hsum Hp) as [Hok Hdraw].
  split; [done|].
  unfold generate_step, step_probs. unfold probability in Hprobs. rewrite Hprobs.
  cbn [rbind]. unfold sample_word. rewrite Hok, Hi. done.
Qed.

Lemma START_can_be_sampled (sent : list string) :
  generating m alpha sent →
  head sent = Some START_TOKEN
  ∧ (List.last sent EmptyString ≠ STOP_TOKEN →
     ∃ probs i,
       step_probs m alpha sent = Ok probs
       ∧ elements (vocab m) !! i = Some START_TOKEN
       ∧ draw_possible probs i = true
       ∧ generate_step m alpha sent i = Ok (sent ++ [START_TOKEN])
       ∧ generating m alpha (sent ++ [START_TOKEN])).
Proof.
  intros Hgen.
  assert (Hstart : START_TOKEN ∈ vocab m) by apply START_in_vocab.
  destruct (generating_invariant m alpha sent Hstart Hgen) as [Hhd Hall].
  split; [done|]. intros Hstop.
  apply elem_of_elements, list_elem_of_lookup_1 in Hstart as [i Hi].
  assert (Hlast : List.last sent EmptyString ∈ vocab m).
  { rewrite Forall_forall in Hall. apply Hall, last_elem_of. by destruct sent. }
  destruct (step_probs_drawable sent i START_TOKEN Hlast Hstop Hi)
    as (probs & Hprobs & Hdraw & Hstep).
  exists probs, i. repeat split; try done.
  by eapply generating_next.
Qed.
End generator.

(** A run of the generator: [list(vocab)] is here
    [sat, cat, ran, STOP, START, the, dog], and the draws 5, 1, 0, 3 print
    the headline "the cat sat". *)
Example generate_headline_run :
  generate_headline (train corpus_the 0) 1 [5; 1; 0; 3]%nat [START_TOKEN]
    = Ok (Some "the cat sat"%string).
Proof. vm_compute. reflexivity. Qed.

(** C8 as stated fails: with the model trained on
    ["the cat sat", "the dog ran"] and alpha = 1, the very first draw can
    select START (weight 1/9 after the context START), so the generator
    can reach the sequence [START, START]. *)
Lemma generator_can_append_START :
  ¬ (∀ sent, generating (train corpus_the 0) 1 sent → START_TOKEN ∉ tail sent).
Proof.
  intros Hnever. apply (Hnever [START_TOKEN; START_TOKEN]); [|left].
  assert (Hraw : corpus_the ≠ []) by done.
  assert (Halpha : (0 < 1)%Q) by reflexivity.
  destruct (START_can_be_sampled corpus_the 0 1 Hraw Halpha [START_TOKEN])
    as [_ Hstep]; [constructor|].
  destruct Hstep as (probs & i & _ & _ & _ & _ & Hgen); [done|].
  exact Hgen.
Qed.

(** C8, amended. START is the first token of every sequence the generator
    builds, but it is not excluded from the draws: the candidates of every
    step are the whole vocabulary, which contains START. For a model
    trained on at least one line and alpha > 0, at every step of the loop
    the weights are defined, pass the check of the multinomial draw, and
    the draw can come out at START, which is then appended. *)
Theorem START_is_a_candidate
    (raw : list string) (min_freq : Z) (alpha : Q) (sent : list string)
    (Hraw : raw ≠ [])
    (Halpha : (0 < alpha)%Q)
    (Hsent : generating (train raw min_freq) alpha sent)
    (Hrunning : List.last sent EmptyString ≠ STOP_TOKEN) :
  let m := train raw min_freq in
  head sent = Some START_TOKEN
  ∧ START_TOKEN ∈ elements (vocab m)
  ∧ ∃ probs i p,
      step_probs m alpha sent = Ok probs
      ∧ elements (vocab m) !! i = Some START_TOKEN
      ∧ probs !! i = Some p ∧ (0 < p)%Q
      ∧ draw_possible probs i = true
      ∧ generate_step m alpha sent i = Ok (sent ++ [START_TOKEN])
      ∧ generating m alpha (sent ++ [START_TOKEN]).
Proof.
  intros m. unfold m. clear m.
  destruct (START_can_be_sampled raw min_freq alpha Hraw Halpha sent Hsent)
    as [Hhd Hstep].
  destruct (Hstep Hrunning) as (probs & i & Hprobs & Hi & Hdraw & Hgo & Hgen).
  split; [done|]. split; [apply elem_of_elements, START_in_vocab|].
  assert (Hp : ∃ p, probs !! i = Some p ∧ (0 < p)%Q).
  { assert (Hne : map preprocess raw ≠ []) by (by destruct raw).
    assert (Hv : List.last sent EmptyString ∈ vocab (train raw min_freq)).
    { destruct (generating_invariant (train raw min_freq) alpha sent (START_in_vocab _ _) Hsent) as [_ Hall].
      rewrite Forall_forall in Hall. apply Hall, last_elem_of.
      intros ->. done. }
    apply (unigrams_vocab (map preprocess raw) min_freq _ Hne) in Hv as [u Hu].
    assert (Hg : ∀ t, t ∈ elements (vocab (train raw min_freq)) →
               probability (train raw min_freq) alpha t (List.last sent EmptyString)
               = Ok ((inject_Z (count_of (bigrams (train raw min_freq)) (List.last sent EmptyString, t)) + alpha)
                     / (inject_Z u + inject_Z (vocab_size (train raw min_freq)) * alpha))%Q).
    { intros t _. destruct (probability_known raw min_freq alpha t _ u Halpha Hu)
        as (q & Hq & -> & _). exact Hq. }
    apply rmap_ok in Hg. unfold step_probs in Hprobs. unfold probability in Hg.
    rewrite Hg in Hprobs. injection Hprobs as <-.
    destruct (probability_known raw min_freq alpha START_TOKEN _ u Halpha Hu)
      as (q & _ & -> & Hpos & _).
    eexists. split; [|exact Hpos].
    rewrite list_lookup_fmap_Some. eauto. }
  destruct Hp as (p & Hp & Hpos). exists probs, i, p. done.
Qed.

Lemma START_is_a_candidate_witness :
  generating (train corpus_the 0) 1 [START_TOKEN; START_TOKEN].
Proof.
  assert (Hraw : corpus_the ≠ []) by done.
  assert (Halpha : (0 < 1)%Q) by reflexivity.
  assert (Hsent : generating (train corpus_the 0) 1 [START_TOKEN]) by constructor.
  assert (Hrunning : List.last [START_TOKEN] EmptyString ≠ STOP_TOKEN) by done.
  destruct (START_is_a_candidate corpus_the 0 1 [START_TOKEN] Hraw Halpha Hsent Hrunning)
    as (_ & _ & probs & i & p & _ & _ & _ & _ & _ & _ & Hgen).
  exact Hgen.
Defined.

(** * Further properties of the code *)

(** ** Splitting, joining and cleaning *)

Lemma join_space_cons_char (c : ascii) (w : string) (ws : list string) :
  join_space (String c w :: ws) = String c (join_space (w :: ws)).
Proof. by destruct ws. Qed.

(** X1. [" ".join(text.split(" "))] gives [text] back, for every text. *)
Theorem join_split_space (text : string) : join_space (split_space text) = text.
Proof.
  induction text as [|c text IH]; [done|]. cbn [split_space].
  destruct (Ascii.eqb_spec c " ") as [->|_].
  - destruct (split_space text) as [|w ws] eqn:E; [by apply split_space_nonempty in E|].
    change (join_space (EmptyString :: w :: ws)) with (String " " (join_space (w :: ws))).
    by rewrite IH.
  - destruct (split_space text) as [|w ws] eqn:E; [by apply split_space_nonempty in E|].
    by rewrite join_space_cons_char, IH.
Qed.

Lemma split_ws_word_then_space (w rest : string) :
  is_word w → split_ws (w +:+ String " " rest) = w :: split_ws rest.
Proof.
  intros [Hne Hw]. induction w as [|c w IH]; [done|]. clear Hne.
  cbn [all_chars] in Hw. apply andb_true_iff in Hw as [Hc Hw].
  apply negb_true_iff in Hc.
  change (String c w +:+ String " " rest) with (String c (w +:+ String " " rest)).
  cbn [split_ws]. rewrite Hc. destruct w as [|c' w].
  - cbn. done.
  - specialize (IH ltac:(done) Hw).
    cbn [all_chars] in Hw. apply andb_true_iff in Hw as [Hc' _].
    apply negb_true_iff in Hc'.
    change (String c' w +:+ String " " rest)
      with (String c' (w +:+ String " " rest)) in IH |- *.
    cbv beta iota. by rewrite Hc', IH.
Qed.

Lemma split_ws_word (w : string) : is_word w → split_ws w = [w].
Proof.
  intros [Hne Hw]. induction w as [|c w IH]; [done|]. clear Hne.
  cbn [all_chars] in Hw. apply andb_true_iff in Hw as [Hc Hw].
  apply negb_true_iff in Hc. cbn [split_ws]. rewrite Hc. destruct w as [|c' w]; [done|].
  rewrite IH by done.
  cbn [all_chars] in Hw. apply andb_true_iff in Hw as [Hc' _].
  apply negb_true_iff in Hc'. by rewrite Hc'.
Qed.

Lemma split_ws_join_words (ws : list string) :
  Forall is_word ws → split_ws (join_space ws) = ws.
Proof.
  unfold join_space. induction 1 as [|w ws Hw Hws IH]; [done|].
  destruct ws as [|w' ws]; [by apply split_ws_word|].
  change (String.concat " " (w :: w' :: ws))
    with (w +:+ String " " (String.concat " " (w' :: ws))).
  by rewrite split_ws_word_then_space, IH.
Qed.

(** X2. For every list [ws] of non-empty words that hold no whitespace,
    [" ".join(ws).split()] gives [ws] back; [" ".join(ws).split(" ")], the
    split of the counters, gives the same list when there is at least one
    word, and [[""]] instead of the empty list when there is none. *)
Theorem split_ws_join (ws : list string) (Hwords : Forall is_word ws) :
  split_ws (join_space ws) = ws
  ∧ (ws ≠ [] → split_space (join_space ws) = ws)
  ∧ (ws = [] → split_space (join_space ws) = [EmptyString]).
Proof.
  split; [by apply split_ws_join_words|].
  assert (Hblank : Forall (λ w, all_chars not_blank w = true) ws).
  { eapply Forall_impl; [exact Hwords|]. intros w [_ Hw].
    revert Hw. apply all_chars_impl, not_space_not_blank. }
  split; intros Hws; rewrite split_space_join by done.
  - by rewrite decide_False.
  - by rewrite decide_True.
Qed.

Lemma split_ws_join_witness :
  split_ws (join_space ["the"; "<UNK>"; "sat"]%string) = ["the"; "<UNK>"; "sat"]%string
  ∧ split_space (join_space ["the"; "<UNK>"; "sat"]%string)
    = ["the"; "<UNK>"; "sat"]%string.
Proof.
  assert (Hwords : Forall is_word ["the"; "<UNK>"; "sat"]%string)
    by (repeat constructor; discriminate).
  destruct (split_ws_join ["the"; "<UNK>"; "sat"]%string Hwords) as (H1 & H2 & _).
  split; [exact H1 | apply H2; discriminate].
Defined.

Lemma split_ws_is_word (text w : string) : w ∈ split_ws text → is_word w.
Proof. apply split_ws_pieces. Qed.

Lemma UNK_is_word : is_word UNK_TOKEN.
Proof. split; [discriminate | reflexivity]. Qed.

(** X3. Rewriting is idempotent: a line already rewritten by
    [replace_text_train] (whatever the rare set) or by [replace_text_dev]
    (whatever the vocabulary) is left unchanged by a second pass. *)
Theorem replace_text_idempotent (words : gset string) (text : string) :
  replace_text_train words (replace_text_train words text)
    = replace_text_train words text
  ∧ replace_text_dev words (replace_text_dev words text)
    = replace_text_dev words text.
Proof.
  split.
  - unfold replace_text_train at 1 3. f_equal. unfold replace_text_train.
    rewrite split_ws_join_words.
    + rewrite map_map. apply map_ext_in. intros t _.
      repeat case_decide; done.
    + apply Forall_forall. intros w (t & -> & Ht)%elem_of_map.
      case_decide; [apply UNK_is_word | by apply split_ws_is_word in Ht].
  - unfold replace_text_dev at 1 3. f_equal. unfold replace_text_dev.
    rewrite split_ws_join_words.
    + rewrite map_map. apply map_ext_in. intros t _.
      repeat case_decide; done.
    + apply Forall_forall. intros w (t & -> & Ht)%elem_of_map.
      case_decide; [apply UNK_is_word | by apply split_ws_is_word in Ht].
Qed.

Lemma first_line_not_newline (h : string) : all_chars not_newline (first_line h) = true.
Proof.
  induction h as [|c h IH]; [done|]. cbn [first_line].
  destruct (Ascii.eqb c "010") eqn:E; [done|]. cbn [all_chars].
  unfold not_newline at 1. by rewrite E.
Qed.

Lemma first_line_id (s : string) : all_chars not_newline s = true → first_line s = s.
Proof.
  induction s as [|c s IH]; [done|]. cbn [all_chars first_line].
  intros [Hc Hs]%andb_true_iff. unfold not_newline in Hc.
  apply negb_true_iff in Hc. rewrite Hc. by rewrite IH.
Qed.

Lemma regex_sub_id (s : string) : all_chars not_punctuation s = true → regex_sub s = s.
Proof.
  induction s as [|c s IH]; [done|]. cbn [all_chars regex_sub].
  intros [Hc Hs]%andb_true_iff. unfold not_punctuation in Hc.
  apply negb_true_iff in Hc. rewrite Hc. by rewrite IH.
Qed.

Lemma regex_sub_all_chars (P : ascii → bool) (s : string) :
  all_chars P s = true → all_chars P (regex_sub s) = true.
Proof.
  induction s as [|c s IH]; [done|]. cbn [all_chars regex_sub].
  intros [Hc Hs]%andb_true_iff. destruct (is_punctuation c); [by apply IH|].
  cbn [all_chars]. by rewrite Hc, IH.
Qed.

(** X4. The cleaning of the setup cell, [regex.sub('', h.split("\n")[0])],
    returns a text without punctuation and without newline, and cleaning a
    cleaned line changes nothing. *)
Theorem preprocess_clean (h : string) :
  all_chars not_punctuation (preprocess h) = true
  ∧ all_chars not_newline (preprocess h) = true
  ∧ preprocess (preprocess h) = preprocess h.
Proof.
  assert (Hnl : all_chars not_newline (preprocess h) = true)
    by apply regex_sub_all_chars, first_line_not_newline.
  split; [apply regex_sub_not_punctuation|]. split; [done|].
  unfold preprocess at 1. rewrite first_line_id by done.
  apply regex_sub_id, regex_sub_not_punctuation.
Qed.

(** ** One call of a counter *)

Section one_call.
Context `{Countable K}.
Implicit Types (d : gmap K Z) (k : K) (l : list K).

Lemma total_count_incr d k : total_count (incr d k) = total_count d + 1.
Proof.
  unfold incr, total_count. destruct (d !! k) as [n|] eqn:E.
  - rewrite <- (insert_delete_eq d).
    rewrite (Zsum_perm _ _ (Permutation_map _
               (map_to_list_insert (delete k d) k (n + 1) (lookup_delete_eq d k)))).
    rewrite <- (Zsum_perm _ _ (Permutation_map snd (map_to_list_delete d k n E))).
    cbn [map snd]. rewrite !Zsum_cons. lia.
  - rewrite (Zsum_perm _ _ (Permutation_map _ (map_to_list_insert d k 1 E))).
    cbn [map snd]. rewrite Zsum_cons. lia.
Qed.

Lemma total_count_foldl_incr l d :
  total_count (foldl incr d l) = total_count d + Z.of_nat (length l).
Proof.
  revert d. induction l as [|k l IH]; intros d; cbn [foldl length]; [lia|].
  rewrite IH, total_count_incr. lia.
Qed.

Lemma count_of_foldl_incr l d k :
  count_of (foldl incr d l) k = count_of d k + occ k l.
Proof.
  unfold count_of at 1. rewrite lookup_foldl_incr.
  case_decide as E; [rewrite E; unfold count_of; lia | done].
Qed.

Lemma is_Some_foldl_incr l d k :
  is_Some (foldl incr d l !! k) ↔ is_Some (d !! k) ∨ k ∈ l.
Proof.
  rewrite lookup_foldl_incr. case_decide as E.
  - apply occ_zero_iff in E. split; [by left | by intros [?|?]].
  - split; [intros _; right | by eauto].
    apply occ_pos_iff. pose proof (occ_nonneg k l). lia.
Qed.
End one_call.

(** X5. One call [count_unigrams(text, d)] on any dictionary [d] adds to
    every key the number of its occurrences among the wrapped tokens of
    [text] (START and STOP once more each), keeps every key [d] had, and
    raises the sum of all counts by the number of pieces of
    [text.split(" ")] plus two. *)
Theorem count_unigrams_adds (text : string) (d : gmap string Z) (k : string) :
  count_of (count_unigrams text d) k = count_of d k + occ k (wrap text)
  ∧ (is_Some (count_unigrams text d !! k) ↔ is_Some (d !! k) ∨ k ∈ wrap text)
  ∧ is_Some (count_unigrams text d !! START_TOKEN)
  ∧ is_Some (count_unigrams text d !! STOP_TOKEN)
  ∧ total_count (count_unigrams text d)
      = total_count d + Z.of_nat (length (split_space text)) + 2.
Proof.
  unfold count_unigrams. split; [apply count_of_foldl_incr|].
  split; [apply is_Some_foldl_incr|].
  split; [apply is_Some_foldl_incr; right; apply elem_of_wrap; by left|].
  split; [apply is_Some_foldl_incr; right; apply elem_of_wrap; by right; right|].
  rewrite total_count_foldl_incr. unfold wrap. cbn [app length].
  rewrite length_app. cbn [length]. lia.
Qed.

(** X6. One call [count_bigrams(text, d)] on any dictionary [d] adds to
    every pair the number of times it occurs as two adjacent wrapped
    tokens of [text], keeps every key [d] had, and raises the sum of all
    counts by the number of pieces of [text.split(" ")] plus one: every
    adjacent pair is counted exactly once. *)
Theorem count_bigrams_adds (text : string) (d : gmap (string * string) Z)
    (p : string * string) :
  count_of (count_bigrams text d) p = count_of d p + occ p (adjacent (wrap text))
  ∧ (is_Some (count_bigrams text d !! p)
     ↔ is_Some (d !! p) ∨ p ∈ adjacent (wrap text))
  ∧ total_count (count_bigrams text d)
      = total_count d + Z.of_nat (length (split_space text)) + 1.
Proof.
  unfold count_bigrams. split; [apply count_of_foldl_incr|].
  split; [apply is_Some_foldl_incr|].
  rewrite total_count_foldl_incr.
  rewrite <- (length_map fst), map_fst_adjacent, removelast_wrap.
  cbn [length]. lia.
Qed.

(** ** Invariants of the training cell *)

Lemma occ_perm `{EqDecision A} (x : A) (l l' : list A) : l ≡ₚ l' → occ x l = occ x l'.
Proof. induction 1; cbn [occ]; lia. Qed.

Lemma foldl_incr_perm `{Countable K} (l l' : list K) :
  l ≡ₚ l' → foldl incr (∅ : gmap K Z) l = foldl incr ∅ l'.
Proof.
  intros Hp. apply map_eq. intros k. rewrite !lookup_counted.
  rewrite (occ_perm k l l' Hp).
  destruct (decide (k ∈ l)) as [Hk|Hk], (decide (k ∈ l')) as [Hk'|Hk']; try done.
  - by rewrite Hp in Hk.
  - by rewrite <- Hp in Hk'.
Qed.

Lemma concat_map_perm {A B} (f : A → list B) (l l' : list A) :
  l ≡ₚ l' → concat (map f l) ≡ₚ concat (map f l').
Proof.
  induction 1 as [|x l l' Hp IH|x y l|l1 l2 l3 _ IH1 _ IH2]; cbn [map concat].
  - done.
  - by rewrite IH.
  - rewrite !app_assoc. f_equiv. apply Permutation_app_comm.
  - by rewrite IH1.
Qed.

(** X7. The trained model does not depend on the order of the training
    lines: a permuted corpus gives the same rare set, the same unigram and
    bigram dictionaries and the same vocabulary. *)
Theorem train_order_independent (raw raw' : list string) (min_freq : Z)
    (Hperm : raw ≡ₚ raw') :
  low_freq (train raw min_freq) = low_freq (train raw' min_freq)
  ∧ unigrams (train raw min_freq) = unigrams (train raw' min_freq)
  ∧ bigrams (train raw min_freq) = bigrams (train raw' min_freq)
  ∧ vocab (train raw min_freq) = vocab (train raw' min_freq)
  ∧ headlines_train_clean (train raw min_freq)
      ≡ₚ headlines_train_clean (train raw' min_freq).
Proof.
  assert (Hlines : map preprocess raw ≡ₚ map preprocess raw')
    by (by apply Permutation_map).
  assert (Hlow : low_freq (train raw min_freq) = low_freq (train raw' min_freq)).
  { cbn [low_freq train train_clean]. f_equal. unfold all_words.
    rewrite !foldl_count_unigrams. apply foldl_incr_perm.
    by apply concat_map_perm. }
  assert (Hclean : headlines_train_clean (train raw min_freq)
                   ≡ₚ headlines_train_clean (train raw' min_freq)).
  { cbn [headlines_train_clean train train_clean].
    cbn [low_freq train train_clean] in Hlow. rewrite Hlow.
    by apply Permutation_map. }
  split; [done|]. split; [|split; [|split; [|done]]].
  - unfold train. rewrite !unigrams_eq. apply foldl_incr_perm.
    by apply concat_map_perm.
  - unfold train. rewrite !bigrams_eq. apply foldl_incr_perm.
    by apply (concat_map_perm (λ h, adjacent (wrap h))).
  - apply set_eq. intros k. unfold train. rewrite !elem_of_vocab.
    fold (train raw min_freq) (train raw' min_freq).
    split; (intros [?|[?|(h & Hh & Hk)]]; [by left | by right; left |]);
      right; right; exists h; (split; [|done]).
    + by rewrite <- Hclean.
    + by rewrite Hclean.
Qed.

Lemma train_order_independent_witness :
  unigrams (train ["a b"; "c"]%string 0) = unigrams (train ["c"; "a b"]%string 0).
Proof.
  refine (proj1 (proj2 (train_order_independent ["a b"; "c"]%string
                          ["c"; "a b"]%string 0 _))).
  apply Permutation_swap.
Defined.

Section boundaries.
Variables (raw : list string) (min_freq : Z).

Local Abbreviation m := (train raw min_freq).

(** A word of a rewritten line is the empty string, "<UNK>" or a word
    without punctuation: never a boundary token. *)
Lemma clean_word_not_boundary (h k : string) :
  h ∈ headlines_train_clean m → k ∈ split_space h →
  k ≠ START_TOKEN ∧ k ≠ STOP_TOKEN.
Proof.
  intros Hh Hk.
  destruct (proj1 (elem_of_clean_line raw min_freq k)) as (r & Hr & Hcase); [eauto|].
  destruct Hcase as [[_ ->]|(t & Ht & ->)]; [done|].
  case_decide; [done|].
  apply all_chars_split_ws with (P := not_punctuation) in Ht;
    [|apply regex_sub_not_punctuation].
  split; intros ->; done.
Qed.

Lemma occ_START_counted (clean : list string) :
  (∀ h k, h ∈ clean → k ∈ split_space h → k ≠ START_TOKEN ∧ k ≠ STOP_TOKEN) →
  occ START_TOKEN (counted_tokens clean) = Z.of_nat (length clean)
  ∧ occ STOP_TOKEN (counted_tokens clean) = Z.of_nat (length clean).
Proof.
  unfold counted_tokens. induction clean as [|h clean IH]; intros Hb; [done|].
  destruct IH as [IH1 IH2]; [intros h' k Hh'; apply Hb; by right|].
  cbn [map concat length]. rewrite !occ_app, IH1, IH2. unfold wrap.
  cbn [app]. rewrite !app_comm_cons, !occ_app.
  assert (Hs1 : occ START_TOKEN (split_space h) = 0).
  { apply occ_zero_iff. intros Hk. by destruct (Hb h START_TOKEN (list_elem_of_here _ _) Hk). }
  assert (Hs2 : occ STOP_TOKEN (split_space h) = 0).
  { apply occ_zero_iff. intros Hk. by destruct (Hb h STOP_TOKEN (list_elem_of_here _ _) Hk). }
  cbn [occ]. rewrite Hs1, Hs2.
  split; repeat case_decide; try done; lia.
Qed.

Lemma boundary_counts :
  count_of (unigrams m) START_TOKEN = Z.of_nat (length raw)
  ∧ count_of (unigrams m) STOP_TOKEN = Z.of_nat (length raw).
Proof.
  unfold train. rewrite !count_of_unigrams.
  destruct (occ_START_counted (headlines_train_clean m)) as [H1 H2].
  { apply clean_word_not_boundary. }
  unfold train in H1, H2. rewrite H1, H2.
  cbn [headlines_train_clean train_clean]. by rewrite !length_map.
Qed.

Lemma STOP_never_context (t : string) : bigrams m !! (STOP_TOKEN, t) = None.
Proof.
  unfold train. rewrite bigrams_eq, lookup_counted. case_decide as Hp; [|done].
  exfalso. apply elem_of_counted_bigrams in Hp as (h & Hh & Hp).
  assert (Hc : STOP_TOKEN ∈ map fst (adjacent (wrap h)))
    by (apply elem_of_map; by exists (STOP_TOKEN, t)).
  rewrite map_fst_adjacent, removelast_wrap in Hc.
  apply elem_of_cons in Hc as [?|Hc]; [done|].
  by destruct (clean_word_not_boundary h STOP_TOKEN Hh Hc).
Qed.

Lemma START_never_target (c : string) : bigrams m !! (c, START_TOKEN) = None.
Proof.
  unfold train. rewrite bigrams_eq, lookup_counted. case_decide as Hp; [|done].
  exfalso. apply elem_of_counted_bigrams in Hp as (h & Hh & Hp).
  assert (Hc : START_TOKEN ∈ map snd (adjacent (wrap h)))
    by (apply elem_of_map; by exists (c, START_TOKEN)).
  rewrite map_snd_adjacent in Hc. unfold wrap in Hc. cbn [app tail] in Hc.
  apply elem_of_app in Hc as [Hc|Hc].
  - by destruct (clean_word_not_boundary h START_TOKEN Hh Hc).
  - by apply list_elem_of_singleton in Hc.
Qed.
End boundaries.

(** X8. In a trained model START and STOP are each counted exactly once per
    training line, whatever the lines hold; no bigram has STOP as its
    context and none has START as its target. *)
Theorem boundary_tokens_counted_once_per_line
    (raw : list string) (min_freq : Z) (c t : string) :
  let m := train raw min_freq in
  count_of (unigrams m) START_TOKEN = Z.of_nat (length raw)
  ∧ count_of (unigrams m) STOP_TOKEN = Z.of_nat (length raw)
  ∧ bigrams m !! (STOP_TOKEN, t) = None
  ∧ bigrams m !! (c, START_TOKEN) = None.
Proof.
  intros m. destruct (boundary_counts raw min_freq) as [H1 H2].
  split; [done|]. split; [done|].
  split; [apply STOP_never_context | apply START_never_target].
Qed.

(** X9. For a training corpus with at least one line the keys of the
    unigram dictionary are exactly the vocabulary, every count is at least
    1, and every recorded bigram has its context and its target among those
    keys, with a count between 1 and the count of its context. *)
Theorem dictionaries_agree_with_vocab
    (raw : list string) (min_freq : Z) (Hraw : raw ≠ []) :
  let m := train raw min_freq in
  dom (unigrams m) = vocab m
  ∧ (∀ k n, unigrams m !! k = Some n → 1 ≤ n)
  ∧ (∀ c t n, bigrams m !! (c, t) = Some n →
       c ∈ vocab m ∧ t ∈ vocab m ∧ 1 ≤ n ≤ count_of (unigrams m) c).
Proof.
  intros m. subst m. assert (Hne : map preprocess raw ≠ []) by (by destruct raw).
  split; [|split].
  - apply set_eq. intros k. rewrite elem_of_dom.
    apply (unigrams_vocab (map preprocess raw) min_freq k Hne).
  - apply (unigrams_pos (map preprocess raw) min_freq).
  - intros c t n Hn.
    pose proof (bigram_le_unigram (map preprocess raw) min_freq c t) as [_ Hle].
    unfold train in Hn |- *.
    assert (Hcn : count_of (bigrams (train_clean (map preprocess raw) min_freq)) (c, t) = n)
      by (unfold count_of; by rewrite Hn).
    rewrite Hcn in Hle.
    assert (Hpos : 1 ≤ n).
    { rewrite <- Hcn, count_of_bigrams.
      rewrite bigrams_eq, lookup_counted in Hn.
      case_decide as Hp; [|done]. apply occ_pos_iff in Hp. lia. }
    split; [|split; [|done]].
    + apply (unigrams_vocab (map preprocess raw) min_freq c Hne).
      destruct (unigrams (train_clean (map preprocess raw) min_freq) !! c)
        as [u|] eqn:Hu; [by eexists|].
      assert (count_of (unigrams (train_clean (map preprocess raw) min_freq)) c = 0)
        by (unfold count_of; by rewrite Hu).
      lia.
    + by apply (lookup_bigrams_vocab (map preprocess raw) min_freq c t n).
Qed.

Lemma dictionaries_agree_with_vocab_witness :
  dom (unigrams (train corpus_ab 1)) = vocab (train corpus_ab 1).
Proof.
  refine (proj1 (dictionaries_agree_with_vocab corpus_ab 1 _)). discriminate.
Defined.

(** X10. Counting keeps the bigram rows balanced: for every context other
    than STOP the counts of all bigrams that start with it add up to the
    context's unigram count, and the row of STOP is empty. *)
Theorem bigram_rows_balanced (raw : list string) (min_freq : Z) (context : string) :
  let m := train raw min_freq in
  (context ≠ STOP_TOKEN → row_sum (bigrams m) context = count_of (unigrams m) context)
  ∧ row_sum (bigrams m) STOP_TOKEN = 0.
Proof.
  intros m. subst m. split; [apply row_sum_trained|].
  rewrite row_sum_vocab.
  rewrite (Zsum_map_ext _ (λ _, 0)); [apply Zsum_map_zero|].
  intros t _. unfold count_of. by rewrite STOP_never_context.
Qed.

Lemma bigram_rows_balanced_witness :
  row_sum (bigrams (train corpus_the 0)) "the"
    = count_of (unigrams (train corpus_the 0)) "the".
Proof.
  apply (proj1 (bigram_rows_balanced corpus_the 0 "the")). discriminate.
Defined.

(** X11. The rare set grows with the threshold, and with a threshold below
    1 nothing is collapsed: the rare set is empty, every line is rewritten
    to its words joined by single spaces, and "<UNK>" is not in the
    vocabulary. *)
Theorem threshold_behaviour (raw : list string) (min_freq min_freq' : Z) :
  (min_freq ≤ min_freq' →
   low_freq (train raw min_freq) ⊆ low_freq (train raw min_freq'))
  ∧ (min_freq < 1 →
     low_freq (train raw min_freq) = ∅
     ∧ headlines_train_clean (train raw min_freq)
         = map (λ r, join_space (split_ws (preprocess r))) raw
     ∧ UNK_TOKEN ∉ vocab (train raw min_freq)).
Proof.
  split.
  - intros Hle t. cbn [low_freq train train_clean].
    rewrite !elem_of_find_low_freq. intros (n & Hn & Hn'). exists n. split; [done|lia].
  - intros Hlt.
    assert (Hlow : low_freq (train raw min_freq) = ∅).
    { apply set_eq. intros t. split; [|by intros ?%not_elem_of_empty].
      cbn [low_freq train train_clean]. rewrite elem_of_find_low_freq.
      intros (n & Hn & Hle). exfalso.
      unfold all_words in Hn. rewrite foldl_count_unigrams, lookup_counted in Hn.
      case_decide as Hk; [|done]. injection Hn as <-.
      apply occ_pos_iff in Hk. lia. }
    split; [done|]. split.
    + cbn [headlines_train_clean train train_clean].
      cbn [low_freq train train_clean] in Hlow. rewrite Hlow, map_map.
      apply map_ext. intros r. unfold replace_text_train. f_equal.
      rewrite <- (map_id (split_ws (preprocess r))) at 2.
      apply map_ext. intros t. by rewrite decide_False by apply not_elem_of_empty.
    + intros (r & t & _ & _ & Ht)%UNK_in_vocab_iff.
      rewrite Hlow in Ht. by apply not_elem_of_empty in Ht.
Qed.

Lemma threshold_behaviour_witness :
  low_freq (train corpus_ab 0) = ∅ ∧ low_freq (train corpus_ab 0) ⊆ low_freq (train corpus_ab 1).
Proof.
  pose proof (threshold_behaviour corpus_ab 0 1) as [Hmono Hzero].
  split; [apply Hzero; lia | apply Hmono; lia].
Defined.

(** ** The estimator on counted contexts *)

(** X12. In a trained model with alpha > 0, for every context that has a
    unigram count and every target, seen after it or not, the estimator
    returns a value p with 0 < p <= 1. *)
Theorem probability_in_unit_interval
    (raw : list string) (min_freq : Z) (alpha : Q) (target context : string) (u : Z)
    (Halpha : (0 < alpha)%Q)
    (Hcontext : unigrams (train raw min_freq) !! context = Some u) :
  ∃ p, probability (train raw min_freq) alpha target context = Ok p
       ∧ (0 < p)%Q ∧ (p <= 1)%Q.
Proof.
  destruct (probability_known raw min_freq alpha target context u Halpha Hcontext)
    as (p & Hp & _ & Hpos & Hle).
  eauto.
Qed.

Lemma probability_in_unit_interval_witness :
  ∃ p, probability (train corpus_ab 1) (1 # 2) "zebra" "a" = Ok p
       ∧ (0 < p)%Q ∧ (p <= 1)%Q.
Proof.
  apply (probability_in_unit_interval corpus_ab 1 (1 # 2) "zebra" "a" 2);
    vm_compute; reflexivity.
Defined.

(** X13. After a counted context, with alpha > 0, a target whose bigram
    count is not smaller gets a probability that is not smaller; a target
    whose bigram was never counted gets alpha / (u + |V| * alpha), the
    least value any target gets after that context. *)
Theorem probability_monotone_in_count
    (raw : list string) (min_freq : Z) (alpha : Q) (context t1 t2 : string) (u : Z)
    (Halpha : (0 < alpha)%Q)
    (Hcontext : unigrams (train raw min_freq) !! context = Some u)
    (Hcount : count_of (bigrams (train raw min_freq)) (context, t1)
              ≤ count_of (bigrams (train raw min_freq)) (context, t2)) :
  let m := train raw min_freq in
  ∃ p1 p2,
    probability m alpha t1 context = Ok p1
    ∧ probability m alpha t2 context = Ok p2
    ∧ (p1 <= p2)%Q
    ∧ (bigrams m !! (context, t1) = None →
       p1 = ((inject_Z 0 + alpha) / (inject_Z u + inject_Z (vocab_size m) * alpha))%Q).
Proof.
  intros m. subst m.
  destruct (probability_known raw min_freq alpha t1 context u Halpha Hcontext)
    as (p1 & Hp1 & E1 & _).
  destruct (probability_known raw min_freq alpha t2 context u Halpha Hcontext)
    as (p2 & Hp2 & E2 & _).
  exists p1, p2. split; [done|]. split; [done|]. split.
  - rewrite E1, E2.
    pose proof (trained_denominator_pos raw min_freq alpha context Halpha) as Hden.
    unfold count_of in Hden at 1. rewrite Hcontext in Hden. cbn [default] in Hden.
    unfold Qdiv. apply Qmult_le_compat_r.
    + apply Qplus_le_l. by rewrite <- Zle_Qle.
    + apply Qlt_le_weak. by apply Qinv_lt_0_compat.
  - intros Hnone. rewrite E1. unfold count_of. by rewrite Hnone.
Qed.

Lemma probability_monotone_in_count_witness :
  ∃ p1 p2,
    probability (train corpus_the 0) 1 "dog" "the" = Ok p1
    ∧ probability (train corpus_the 0) 1 "the" "the" = Ok p2
    ∧ (p2 <= p1)%Q.
Proof.
  assert (Ha : (0 < 1)%Q) by reflexivity.
  assert (Hu : unigrams (train corpus_the 0) !! "the"%string = Some 2)
    by (vm_compute; reflexivity).
  assert (Hc : count_of (bigrams (train corpus_the 0)) ("the", "the")%string
               ≤ count_of (bigrams (train corpus_the 0)) ("the", "dog")%string)
    by (vm_compute; discriminate).
  destruct (probability_monotone_in_count corpus_the 0 1 "the" "the" "dog" 2 Ha Hu Hc)
    as (p2 & p1 & H2 & H1 & Hle & _).
  exists p1, p2. exact (conj H1 (conj H2 Hle)).
Defined.

(** ** Perplexity of one line and of the development set *)

Section perplexity_errors.
Variables (raw : list string) (min_freq : Z) (alpha : Q).
Hypothesis Halpha : (0 < alpha)%Q.

Local Abbreviation m := (train raw min_freq).

(** The loop stops with KeyError at the first pair whose context was never
    counted. *)
Lemma log_sum_loop_KeyError (pairs : list (string * string)) (log_sum : R) :
  (∃ p, p ∈ pairs ∧ unigrams m !! p.1 = None) →
  log_sum_loop pairs (unigrams m) (bigrams m) alpha (vocab_size m) log_sum
    = Raise KeyError.
Proof.
  revert log_sum. induction pairs as [|[c t] pairs IH]; intros log_sum (p & Hp & Hnone).
  - by apply elem_of_nil in Hp.
  - cbn [log_sum_loop]. destruct (unigrams m !! c) as [u|] eqn:Hu.
    + destruct (probability_known raw min_freq alpha t c u Halpha Hu) as (q & Hq & _).
      unfold probability in Hq. rewrite Hq. cbn [rbind]. apply IH.
      apply elem_of_cons in Hp as [->|Hp]; [|by eauto].
      cbn [fst] in Hnone. congruence.
    + by rewrite get_probability_unknown.
Qed.

Lemma calculate_perplexity_KeyError (text : string) :
  (∃ c, c ∈ START_TOKEN :: split_space text ∧ unigrams m !! c = None) →
  calculate_perplexity text (unigrams m) (bigrams m) alpha (vocab_size m)
    = Raise KeyError.
Proof.
  intros (c & Hc & Hnone). unfold calculate_perplexity.
  rewrite log_sum_loop_KeyError; [done|].
  rewrite <- removelast_wrap, <- map_fst_adjacent in Hc.
  apply elem_of_map in Hc as (p & -> & Hp). eauto.
Qed.
End perplexity_errors.

Lemma all_counted_or_not (d : gmap string Z) (l : list string) :
  (∀ c, c ∈ l → is_Some (d !! c)) ∨ (∃ c, c ∈ l ∧ d !! c = None).
Proof.
  induction l as [|x l IH].
  - left. by intros c ?%elem_of_nil.
  - destruct (d !! x) as [u|] eqn:Hx.
    + destruct IH as [IH|(c & Hc & Hn)].
      * left. intros c [->|Hc]%elem_of_cons; [by eexists | by apply IH].
      * right. exists c. split; [by right | done].
    + right. exists x. split; [left | done].
Qed.

(** X14. In a trained model with alpha > 0, [calculate_perplexity] on any
    text either returns a perplexity, which is then at least 1, or raises
    KeyError; it raises exactly when START or one of the pieces of
    [text.split(" ")] has no unigram count. No other exception occurs: the
    number of pairs it divides by is at least 2. *)
Theorem calculate_perplexity_outcome
    (raw : list string) (min_freq : Z) (alpha : Q) (text : string)
    (Halpha : (0 < alpha)%Q) :
  let m := train raw min_freq in
  let perp := calculate_perplexity text (unigrams m) (bigrams m) alpha (vocab_size m) in
  ((∀ c, c ∈ START_TOKEN :: split_space text → is_Some (unigrams m !! c)) →
   ∃ v, perp = Ok v ∧ (1 <= v)%R)
  ∧ ((∃ c, c ∈ START_TOKEN :: split_space text ∧ unigrams m !! c = None) →
     perp = Raise KeyError)
  ∧ perp ≠ Raise ZeroDivisionError ∧ perp ≠ Raise ValueError
  ∧ 2 ≤ Z.of_nat (length (wrap text)) - 1.
Proof.
  intros m perp. subst m perp.
  assert (Hknown := calculate_perplexity_ge_1 raw min_freq alpha Halpha text).
  assert (Hunknown := calculate_perplexity_KeyError raw min_freq alpha Halpha text).
  split; [done|]. split; [done|].
  destruct (all_counted_or_not (unigrams (train raw min_freq))
              (START_TOKEN :: split_space text)) as [H|H].
  all: split; [|split];
    [first [destruct (Hknown H) as (v & -> & _) | rewrite (Hunknown H)]; discriminate ..|].
  all: unfold wrap; cbn [app length]; rewrite length_app; cbn [length];
    pose proof (split_space_nonempty text);
    destruct (split_space text); [done|]; cbn [length]; lia.
Qed.

Lemma calculate_perplexity_outcome_witness :
  (∃ v, calculate_perplexity "the cat" (unigrams (train corpus_the 0))
          (bigrams (train corpus_the 0)) 1 (vocab_size (train corpus_the 0)) = Ok v
        ∧ (1 <= v)%R)
  ∧ calculate_perplexity "the  cat" (unigrams (train corpus_the 0))
      (bigrams (train corpus_the 0)) 1 (vocab_size (train corpus_the 0))
    = Raise KeyError.
Proof.
  assert (Ha : (0 < 1)%Q) by reflexivity.
  split.
  - apply (calculate_perplexity_outcome corpus_the 0 1 "the cat" Ha).
    intros c Hc. change (split_space "the cat") with ["the"; "cat"]%string in Hc.
    apply elem_of_cons in Hc as [->|Hc]; [exists 2; vm_compute; reflexivity|].
    apply elem_of_cons in Hc as [->|Hc]; [exists 2; vm_compute; reflexivity|].
    apply list_elem_of_singleton in Hc as ->. exists 1. vm_compute. reflexivity.
  - apply (calculate_perplexity_outcome corpus_the 0 1 "the  cat" Ha).
    exists EmptyString. split; [|vm_compute; reflexivity].
    change (split_space "the  cat") with ["the"; ""; "cat"]%string.
    right. right. left.
Defined.

(** X15. The evaluator on one held-out line, for a model trained on at
    least one line with alpha > 0. If "<UNK>" is in the vocabulary, every
    line that has at least one word gets a perplexity, at least 1, whatever
    its words are. A line without any word is scored as the empty token
    and raises KeyError unless the empty token was counted in training. *)
Theorem evaluate_outcome
    (raw : list string) (min_freq : Z) (alpha : Q) (line : string)
    (Hraw : raw ≠ [])
    (Halpha : (0 < alpha)%Q) :
  let m := train raw min_freq in
  (UNK_TOKEN ∈ vocab m → split_ws (preprocess line) ≠ [] →
   ∃ v, evaluate m alpha line = Ok v ∧ (1 <= v)%R)
  ∧ (split_ws (preprocess line) = [] → unigrams m !! EmptyString = None →
     evaluate m alpha line = Raise KeyError).
Proof.
  intros m. subst m. split.
  - intros Hunk Hline. by apply evaluate_ge_1.
  - intros Hline Hnone. unfold evaluate, replace_text_dev. rewrite Hline.
    apply calculate_perplexity_KeyError; [done|].
    exists EmptyString. split; [right; left | done].
Qed.

Lemma evaluate_outcome_witness :
  (∃ v, evaluate (train corpus_ab 1) 1 "a zebra" = Ok v ∧ (1 <= v)%R)
  ∧ evaluate (train corpus_ab 1) 1 "   " = Raise KeyError.
Proof.
  assert (Hraw : corpus_ab ≠ []) by discriminate.
  assert (Ha : (0 < 1)%Q) by reflexivity.
  destruct (evaluate_outcome corpus_ab 1 1 "a zebra" Hraw Ha) as [Hok _].
  destruct (evaluate_outcome corpus_ab 1 1 "   " Hraw Ha) as [_ Herr].
  split.
  - apply Hok; [vm_compute; reflexivity | vm_compute; discriminate].
  - apply Herr; vm_compute; reflexivity.
Defined.

Lemma rmap_Forall {A B} (f : A → result B) (P : B → Prop) (l : list A) :
  (∀ x, x ∈ l → ∃ y, f x = Ok y ∧ P y) →
  ∃ ys, rmap f l = Ok ys ∧ Forall P ys ∧ length ys = length l.
Proof.
  induction l as [|x l IH]; intros Hf.
  - exists []. done.
  - destruct (Hf x) as (y & Hy & HPy); [left|].
    destruct IH as (ys & Hys & HP & Hlen); [intros z Hz; apply Hf; by right|].
    exists (y :: ys). cbn [rmap]. rewrite Hy. cbn [rbind]. rewrite Hys. cbn [rbind].
    split; [done|]. split; [by constructor | cbn [length]; by rewrite Hlen].
Qed.

Lemma Rsum_ge_length (l : list R) :
  Forall (λ v, (1 <= v)%R) l → (INR (length l) <= Rsum l)%R.
Proof.
  induction 1 as [|v l Hv Hl IH].
  - cbn. Lra.lra.
  - change (Rsum (v :: l)) with (v + Rsum l)%R.
    change (length (v :: l)) with (S (length l)). rewrite S_INR. Lra.lra.
Qed.

(** X16. The average of the last cell. On an empty development set it
    raises ZeroDivisionError, whatever the model and alpha. For a model
    trained on at least one line with alpha > 0 and "<UNK>" in its
    vocabulary, the average over a non-empty development set whose lines
    all have a word is returned and is at least 1. *)
Theorem average_perplexity_outcome (m : model) (alpha : Q) :
  average_perplexity m alpha [] = Raise ZeroDivisionError
  ∧ ∀ (raw : list string) (min_freq : Z) (headlines_dev : list string),
      raw ≠ [] →
      (0 < alpha)%Q →
      UNK_TOKEN ∈ vocab (train raw min_freq) →
      headlines_dev ≠ [] →
      (∀ line, line ∈ headlines_dev → split_ws (preprocess line) ≠ []) →
      ∃ v, average_perplexity (train raw min_freq) alpha headlines_dev = Ok v
           ∧ (1 <= v)%R.
Proof.
  split; [reflexivity|].
  intros raw min_freq headlines_dev Hraw Halpha Hunk Hdev Hwords.
  unfold average_perplexity.
  destruct (rmap_Forall (evaluate (train raw min_freq) alpha) (λ v, (1 <= v)%R)
              headlines_dev) as (vs & Hvs & Hall & Hlen).
  { intros line Hline. apply evaluate_ge_1; auto. }
  rewrite Hvs. cbn [rbind].
  destruct vs as [|v vs]; [by destruct headlines_dev|].
  eexists. split; [done|].
  pose proof (Rsum_ge_length (v :: vs) Hall) as Hsum.
  assert (Hpos : (0 < INR (length (v :: vs)))%R) by (apply lt_0_INR; cbn; lia).
  apply (Rmult_le_reg_r (INR (length (v :: vs)))); [done|].
  unfold Rdiv. rewrite Rmult_assoc, Rinv_l by Lra.lra. Lra.lra.
Qed.

Lemma average_perplexity_outcome_witness :
  average_perplexity (train corpus_the 0) 1 [] = Raise ZeroDivisionError
  ∧ ∃ v, average_perplexity (train corpus_ab 1) 1 ["a zebra"; "b"]%string = Ok v
         ∧ (1 <= v)%R.
Proof.
  split; [exact (proj1 (average_perplexity_outcome (train corpus_the 0) 1))|].
  refine (proj2 (average_perplexity_outcome (train corpus_ab 1) 1)
            corpus_ab 1 ["a zebra"; "b"]%string _ _ _ _ _).
  - discriminate.
  - reflexivity.
  - vm_compute. reflexivity.
  - discriminate.
  - intros line Hline.
    apply elem_of_cons in Hline as [->|Hline]; [vm_compute; discriminate|].
    apply list_elem_of_singleton in Hline as ->. vm_compute. discriminate.
Defined.

(** ** The generator loop *)

Lemma last_app_singleton {A} (l : list A) (x d : A) : List.last (l ++ [x]) d = x.
Proof. apply last_last. Qed.

Lemma last_cons_ne {A} (x : A) (l : list A) (d : A) :
  l ≠ [] → List.last (x :: l) d = List.last l d.
Proof. by destruct l. Qed.

Lemma Forall_removelast {A} (P : A → Prop) (l : list A) :
  Forall P l → Forall P (removelast l).
Proof.
  destruct l as [|x l] using rev_ind; [done|].
  rewrite removelast_last. by intros [? _]%Forall_app.
Qed.

(** The loop from a state [START :: ws]: the words drawn so far are
    vocabulary words and STOP is at most the last of them. *)
Lemma generate_headline_words (m : model) (alpha : Q) (draws : list nat)
    (ws : list string) (text : string) :
  Forall (λ w, w ∈ vocab m) ws →
  STOP_TOKEN ∉ removelast ws →
  generate_headline m alpha draws (START_TOKEN :: ws) = Ok (Some text) →
  ∃ out, text = join_space out ∧ Forall (λ w, w ∈ vocab m) out ∧ STOP_TOKEN ∉ out.
Proof.
  revert ws. induction draws as [|i draws IH]; intros ws Hall Hstop Hrun;
    cbn [generate_headline] in Hrun; case_decide as Hlast.
  - injection Hrun as <-. exists (removelast ws).
    split; [done|]. split; [by apply Forall_removelast | done].
  - done.
  - injection Hrun as <-. exists (removelast ws).
    split; [done|]. split; [by apply Forall_removelast | done].
  - destruct (generate_step m alpha (START_TOKEN :: ws) i) as [sent'|] eqn:Hstep; [|done].
    cbn [rbind] in Hrun. apply generate_step_inv in Hstep as (w & Hw & ->).
    apply (IH (ws ++ [w])); [| |exact Hrun].
    + apply Forall_app. split; [done|]. apply Forall_singleton.
      apply elem_of_elements. by eapply list_elem_of_lookup_2.
    + rewrite removelast_last. intros Hin.
      destruct ws as [|w' ws' _] using rev_ind; [by apply elem_of_nil in Hin|].
      rewrite removelast_last in Hstop.
      apply elem_of_app in Hin as [Hin|Hin]; [done|].
      apply list_elem_of_singleton in Hin. subst w'.
      by rewrite app_comm_cons, last_app_singleton in Hlast.
Qed.

(** X17. Whatever the draws, a headline printed by the bigram generator
    consists of vocabulary words only, and STOP is never among them. *)
Theorem generated_headline_words
    (m : model) (alpha : Q) (draws : list nat) (text : string)
    (Hrun : generate_headline m alpha draws [START_TOKEN] = Ok (Some text)) :
  ∃ out, text = join_space out
         ∧ Forall (λ w, w ∈ vocab m) out
         ∧ STOP_TOKEN ∉ out.
Proof.
  apply (generate_headline_words m alpha draws []); [done | | done].
  by intros ?%elem_of_nil.
Qed.

Lemma generated_headline_words_witness :
  ∃ out, "the cat sat"%string = join_space out
         ∧ Forall (λ w, w ∈ vocab (train corpus_the 0)) out
         ∧ STOP_TOKEN ∉ out.
Proof.
  apply (generated_headline_words (train corpus_the 0) 1 [5; 1; 0; 3]%nat).
  vm_compute. reflexivity.
Defined.

(** X18. Trained on the empty corpus the generator cannot draw a single
    word: for every threshold, every alpha and every draw, the first
    iteration raises KeyError, the context START having no unigram
    count. *)
Theorem generator_on_empty_corpus
    (min_freq : Z) (alpha : Q) (i : nat) (draws : list nat) :
  unigrams (train [] min_freq) = ∅
  ∧ vocab (train [] min_freq) = {[START_TOKEN; STOP_TOKEN]}
  ∧ step_probs (train [] min_freq) alpha [START_TOKEN] = Raise KeyError
  ∧ generate_headline (train [] min_freq) alpha (i :: draws) [START_TOKEN]
    = Raise KeyError.
Proof.
  assert (Hprobs : step_probs (train [] min_freq) alpha [START_TOKEN] = Raise KeyError).
  { unfold step_probs.
    change (elements (vocab (train [] min_freq)))
      with (elements (vocab (train [] 0))).
    destruct (elements (vocab (train [] 0))) as [|w ws] eqn:E;
      [by vm_compute in E|].
    cbn [rmap]. by rewrite get_probability_unknown. }
  split; [done|]. split; [by vm_compute|]. split; [done|].
  cbn [generate_headline]. rewrite decide_False by done.
  unfold generate_step. by rewrite Hprobs.
Qed.

(** X19. For a model trained on at least one line and alpha > 0 the
    generator never fails and every candidate can be drawn: at every state
    the loop can reach and for every vocabulary word, STOP included, the
    weights are computed without exception, pass the check of the
    multinomial draw, and the draw can come out at that word, which is then
    appended. *)
Theorem every_candidate_can_be_drawn
    (raw : list string) (min_freq : Z) (alpha : Q) (sent : list string) (w : string)
    (Hraw : raw ≠ [])
    (Halpha : (0 < alpha)%Q)
    (Hsent : generating (train raw min_freq) alpha sent)
    (Hrunning : List.last sent EmptyString ≠ STOP_TOKEN)
    (Hw : w ∈ vocab (train raw min_freq)) :
  ∃ probs i,
    step_probs (train raw min_freq) alpha sent = Ok probs
    ∧ length probs = size (vocab (train raw min_freq))
    ∧ elements (vocab (train raw min_freq)) !! i = Some w
    ∧ draw_possible probs i = true
    ∧ generate_step (train raw min_freq) alpha sent i = Ok (sent ++ [w])
    ∧ generating (train raw min_freq) alpha (sent ++ [w]).
Proof.
  destruct (generating_invariant _ alpha sent (START_in_vocab _ _) Hsent) as [Hhd Hall].
  apply elem_of_elements, list_elem_of_lookup_1 in Hw as [i Hi].
  assert (Hlast : List.last sent EmptyString ∈ vocab (train raw min_freq)).
  { rewrite Forall_forall in Hall. apply Hall, last_elem_of. by destruct sent. }
  destruct (step_probs_drawable raw min_freq alpha Hraw Halpha sent i w Hlast Hrunning Hi)
    as (probs & Hprobs & Hdraw & Hstep).
  exists probs, i. split; [done|]. split.
  - unfold draw_possible in Hdraw. apply andb_true_iff in Hdraw as [_ Hdraw].
    unfold step_probs in Hprobs.
    assert (Hlen : ∀ (f : string → result Q) l ps, rmap f l = Ok ps → length ps = length l).
    { intros f l. induction l as [|x l IH]; intros ps; cbn [rmap].
      - by intros [= <-].
      - destruct (f x); [|done]. cbn [rbind].
        destruct (rmap f l) as [ys|]; [|done]. cbn [rbind].
        intros [= <-]. cbn [length]. by rewrite (IH ys). }
    by apply Hlen in Hprobs.
  - split; [done|]. split; [done|]. split; [done|]. by eapply generating_next.
Qed.

Lemma every_candidate_can_be_drawn_witness :
  generating (train corpus_the 0) 1 [START_TOKEN; STOP_TOKEN].
Proof.
  assert (Hraw : corpus_the ≠ []) by discriminate.
  assert (Halpha : (0 < 1)%Q) by reflexivity.
  assert (Hsent : generating (train corpus_the 0) 1 [START_TOKEN]) by constructor.
  assert (Hrunning : List.last [START_TOKEN] EmptyString ≠ STOP_TOKEN) by discriminate.
  assert (Hw : STOP_TOKEN ∈ vocab (train corpus_the 0)) by apply STOP_in_vocab.
  destruct (every_candidate_can_be_drawn corpus_the 0 1 [START_TOKEN] STOP_TOKEN
              Hraw Halpha Hsent Hrunning Hw)
    as (probs & i & _ & _ & _ & _ & _ & Hgen).
  exact Hgen.
Defined.

(** ** The recurrent-network notebook *)

(** X20. [num_batches] is the number of batches of 512 needed to hold the
    data: for a length that is not negative, [-(-len // 512)] is the least
    integer whose multiple of 512 reaches the length, and it is 0 exactly
    for an empty data list. *)
Theorem num_batches_ceiling (len_data : Z) (Hlen : 0 ≤ len_data) :
  0 ≤ rnn.num_batches len_data
  ∧ len_data ≤ rnn.batch_size * rnn.num_batches len_data
  ∧ rnn.batch_size * (rnn.num_batches len_data - 1) < len_data
  ∧ (rnn.num_batches len_data = 0 ↔ len_data = 0).
Proof.
  unfold rnn.num_batches, rnn.batch_size.
  pose proof (Z.div_mod (- len_data) 512 ltac:(lia)) as Hdm.
  pose proof (Z.mod_pos_bound (- len_data) 512 ltac:(lia)) as Hm.
  lia.
Qed.

Lemma num_batches_ceiling_witness :
  rnn.num_batches 513 = 2 ∧ 513 ≤ rnn.batch_size * rnn.num_batches 513.
Proof.
  split; [reflexivity|]. apply (num_batches_ceiling 513). lia.
Defined.

Lemma foldl_max_ge (l : list nat) (x : nat) :
  (x ≤ foldl Nat.max x l)%nat ∧ ∀ y, y ∈ l → (y ≤ foldl Nat.max x l)%nat.
Proof.
  revert x. induction l as [|z l IH]; intros x; cbn [foldl].
  - split; [done | by intros y ?%elem_of_nil].
  - destruct (IH (Nat.max x z)) as [IH1 IH2]. split; [lia|].
    intros y [->|Hy]%elem_of_cons; [lia | by apply IH2].
Qed.

(** X21. [sent_len] raises ValueError when there is no training line
    ([max] of an empty list); otherwise it is at least 2 and exceeds the
    number of pieces of [h.split(" ")] of every rewritten line [h]. *)
Theorem sent_len_outcome (clean : list string) :
  (clean = [] → rnn.sent_len clean = Raise ValueError)
  ∧ (clean ≠ [] →
     ∃ n, rnn.sent_len clean = Ok n ∧ (2 ≤ n)%nat
          ∧ ∀ h, h ∈ clean → (length (split_space h) < n)%nat).
Proof.
  split; [by intros ->|]. intros Hne. destruct clean as [|h0 clean]; [done|].
  unfold rnn.sent_len, rnn.max_list. cbn [map rbind]. eexists. split; [done|].
  destruct (foldl_max_ge (map (λ h, length (split_space h)) clean)
              (length (split_space h0))) as [H0 Hall].
  pose proof (split_space_nonempty h0).
  split; [destruct (split_space h0); [done | cbn [length] in *; lia]|].
  intros h [->|Hh]%elem_of_cons; [lia|].
  assert (length (split_space h) ≤ foldl Nat.max (length (split_space h0))
            (map (λ h, length (split_space h)) clean))%nat; [|lia].
  apply Hall. apply elem_of_map. eauto.
Qed.

Lemma sent_len_outcome_witness :
  ∃ n, rnn.sent_len ["a b c"; "d"]%string = Ok n ∧ (2 ≤ n)%nat
       ∧ ∀ h, h ∈ ["a b c"; "d"]%string → (length (split_space h) < n)%nat.
Proof.
  apply (proj2 (sent_len_outcome ["a b c"; "d"]%string)). discriminate.
Defined.

Lemma mapM_map {A B} (f : A → option B) (g : A → B) (l : list A) :
  (∀ x, x ∈ l → f x = Some (g x)) → mapM f l = Some (map g l).
Proof.
  intros Hf. apply mapM_Some. induction l as [|x l IH]; [constructor|].
  cbn [map]. constructor; [apply Hf; left|]. apply IH. intros y Hy. apply Hf. by right.
Qed.

Lemma map_lookup_seq {A} (l : list A) (d : A) (n : nat) :
  map (λ i, default d (l !! (i + n)%nat)) (seq 0 (length l - n)) = drop n l.
Proof.
  apply list_eq. intros j.
  change (map ?f ?l) with (f <$> l). rewrite list_lookup_fmap, lookup_drop.
  destruct (decide (j < length l - n)%nat) as [Hj|Hj].
  - rewrite lookup_seq_lt by done. cbn [fmap option_fmap option_map Nat.add].
    destruct (lookup_lt_is_Some_2 l (n + j)) as [x Hx]; [lia|].
    rewrite (Nat.add_comm j n), Hx. done.
  - rewrite lookup_seq_ge by lia. cbn. symmetry. apply lookup_ge_None. lia.
Qed.

Lemma length_padded (n : nat) (h : string) :
  length (rnn.padded n h) = (n + S (length (split_space h)))%nat.
Proof.
  unfold rnn.padded. rewrite !length_app, length_replicate. cbn [length]. lia.
Qed.

(** The windows as a plain map: inside the loop bounds the lookup
    [text[i+n]] always finds its token. *)
Lemma windows_eq (n : nat) (h : string) :
  rnn.windows n h
    = Some (map (λ i, (take n (drop i (rnn.padded n h)),
                       default STOP_TOKEN (rnn.padded n h !! (i + n)%nat)))
                (seq 0 (length (rnn.padded n h) - n))).
Proof.
  unfold rnn.windows. apply mapM_map. intros i Hi.
  apply elem_of_seq in Hi as [_ Hi].
  destruct (lookup_lt_is_Some_2 (rnn.padded n h) (i + n)) as [w Hwi]; [lia|].
  rewrite Hwi. done.
Qed.

Lemma windows_labels (n : nat) (h : string) (ws : list (list string * string)) :
  rnn.windows n h = Some ws → map snd ws = split_space h ++ [STOP_TOKEN].
Proof.
  rewrite windows_eq. intros [= <-]. rewrite map_map. cbn [snd].
  rewrite (map_lookup_seq (rnn.padded n h) STOP_TOKEN n). unfold rnn.padded.
  rewrite drop_app_length'; [done | by rewrite length_replicate].
Qed.

(** X22. The training windows of one headline, for any window length n:
    no index is out of range; there is one window per piece of
    [h.split(" ")] and one more; every history has exactly n tokens, the
    first one is n times START; the labels are the pieces in order followed
    by STOP; and each window with its label is a run of n + 1 consecutive
    tokens of the padded text. *)
Theorem windows_shape (n : nat) (h : string) :
  ∃ ws, rnn.windows n h = Some ws
        ∧ length ws = S (length (split_space h))
        ∧ map snd ws = split_space h ++ [STOP_TOKEN]
        ∧ Forall (λ p, length p.1 = n) ws
        ∧ (fst <$> ws !! 0%nat) = Some (replicate n START_TOKEN)
        ∧ ∀ i hist w, ws !! i = Some (hist, w) →
            hist ++ [w] = take (S n) (drop i (rnn.padded n h)).
Proof.
  pose proof (length_padded n h) as Hlen.
  pose proof (windows_eq n h) as Hw.
  set (text := rnn.padded n h) in *.
  set (g := λ i, (take n (drop i text), default STOP_TOKEN (text !! (i + n)%nat))) in *.
  exists (map g (seq 0 (length text - n))). split; [done|].
  split; [rewrite length_map, length_seq; lia|].
  split; [by apply (windows_labels n h)|].
  split.
  { apply Forall_forall. intros p (i & -> & Hi)%elem_of_map.
    apply elem_of_seq in Hi as [_ Hi]. cbn [fst g].
    rewrite length_take, length_drop. lia. }
  split.
  { change (map g ?l) with (g <$> l). rewrite list_lookup_fmap, lookup_seq_lt by lia.
    cbn [fmap option_fmap option_map fst g Nat.add]. rewrite drop_0.
    unfold text, rnn.padded. f_equal.
    rewrite take_app_length'; [done | by rewrite length_replicate]. }
  intros i hist w Hi.
  change (map g ?l) with (g <$> l) in Hi. rewrite list_lookup_fmap in Hi.
  destruct (seq 0 (length text - n) !! i) as [j|] eqn:Hj; [|done].
  apply lookup_seq in Hj as [-> Hj]. cbn in Hi. injection Hi as <- <-.
  destruct (lookup_lt_is_Some_2 text (i + n)) as [w Hwi]; [lia|].
  rewrite Hwi. cbn [default].
  rewrite (take_S_r (drop i text) n w); [done|].
  by rewrite lookup_drop.
Qed.

Section indices.
Implicit Types (l : list string) (s i : nat).

Lemma lookup_index_fold l s (d : gmap nat string) i :
  foldl (λ d iw, <[iw.1 := iw.2]> d) d (zip (seq s (length l)) l) !! i
    = if decide (s ≤ i < s + length l)%nat then l !! (i - s)%nat else d !! i.
Proof.
  revert s d. induction l as [|x l IH]; intros s d; cbn [length seq zip zip_with foldl].
  - rewrite decide_False by lia. done.
  - rewrite IH. cbn [fst snd]. repeat case_decide; try lia.
    + replace (i - s)%nat with (S (i - S s)) by lia. done.
    + assert (i = s) as -> by lia. rewrite Nat.sub_diag, lookup_insert_eq. done.
    + rewrite lookup_insert_ne by lia. done.
Qed.

Lemma lookup_word_fold l s (d : gmap string nat) (w : string) i :
  NoDup l →
  foldl (λ d iw, <[iw.2 := iw.1]> d) d (zip (seq s (length l)) l) !! w = Some i
  ↔ ((s ≤ i)%nat ∧ l !! (i - s)%nat = Some w) ∨ ((w ∉ l) ∧ d !! w = Some i).
Proof.
  intros Hnd. revert s d. induction Hnd as [|x l Hx Hnd IH]; intros s d;
    cbn [length seq zip zip_with foldl].
  - split; [intros Hd; right; split; [apply not_elem_of_nil | done]|].
    intros [[_ ?]|[_ ?]]; done.
  - rewrite IH. cbn [fst snd]. split.
    + intros [[Hs Hi]|[Hw Hd]].
      * left. split; [lia|]. replace (i - s)%nat with (S (i - S s)) by lia. done.
      * destruct (decide (x = w)) as [->|Hne].
        -- rewrite lookup_insert_eq in Hd. injection Hd as <-.
           left. split; [lia|]. by rewrite Nat.sub_diag.
        -- rewrite lookup_insert_ne in Hd by done. right. split; [|done].
           by intros [?|?]%elem_of_cons.
    + intros [[Hs Hi]|[Hw Hd]].
      * destruct (decide (i = s)) as [->|Hne].
        -- rewrite Nat.sub_diag in Hi. injection Hi as ->.
           right. split; [done|]. by rewrite lookup_insert_eq.
        -- left. split; [lia|].
           replace (i - s)%nat with (S (i - S s)) in Hi by lia. done.
      * apply not_elem_of_cons in Hw as [Hne Hw]. right. split; [done|].
        by rewrite lookup_insert_ne.
Qed.

Lemma lookup_index_to_word l i : rnn.index_to_word l !! i = l !! i.
Proof.
  unfold rnn.index_to_word, rnn.enumerate. rewrite lookup_index_fold.
  rewrite Nat.sub_0_r. case_decide as Hi; [done|].
  rewrite lookup_empty. symmetry. apply lookup_ge_None. lia.
Qed.

Lemma lookup_word_to_index l (w : string) i :
  NoDup l → rnn.word_to_index l !! w = Some i ↔ l !! i = Some w.
Proof.
  intros Hnd. unfold rnn.word_to_index, rnn.enumerate.
  rewrite lookup_word_fold by done. rewrite Nat.sub_0_r, lookup_empty.
  split; [intros [[_ ?]|[_ ?]]; done | intros ?; left; split; [lia | done]].
Qed.
End indices.

Lemma index_dictionaries_aux (clean : list string) :
  (∀ w, w ∈ rnn.vocab clean → is_Some (rnn.word_to_index (elements (rnn.vocab clean)) !! w))
  ∧ (∀ w, w ∉ rnn.vocab clean → rnn.word_to_index (elements (rnn.vocab clean)) !! w = None).
Proof.
  split.
  - intros w [j Hj]%elem_of_elements%list_elem_of_lookup_1. exists j.
    apply lookup_word_to_index; [apply NoDup_elements | done].
  - intros w Hw. destruct (rnn.word_to_index _ !! w) as [j|] eqn:Hj; [|done].
    apply lookup_word_to_index in Hj; [|apply NoDup_elements].
    exfalso. apply Hw, elem_of_elements. by eapply list_elem_of_lookup_2.
Qed.

(** X23. The two index dictionaries built from [vocab_list = list(vocab)]
    are inverse to each other: a word has index i exactly when i names that
    word; the words with an index are exactly the vocabulary, and the
    indices with a word are exactly 0 .. len(vocab) - 1. *)
Theorem index_dictionaries_inverse (clean : list string) (w : string) (i : nat) :
  let vocab_list := elements (rnn.vocab clean) in
  (rnn.word_to_index vocab_list !! w = Some i
   ↔ rnn.index_to_word vocab_list !! i = Some w)
  ∧ (is_Some (rnn.word_to_index vocab_list !! w) ↔ w ∈ rnn.vocab clean)
  ∧ (is_Some (rnn.index_to_word vocab_list !! i) ↔ (i < size (rnn.vocab clean))%nat)
  ∧ (rnn.word_to_index vocab_list !! w = Some i → (i < size (rnn.vocab clean))%nat).
Proof.
  intros vocab_list.
  assert (Hnd : NoDup vocab_list) by apply NoDup_elements.
  split; [by rewrite lookup_word_to_index, lookup_index_to_word|].
  split; [|split].
  - rewrite <- elem_of_elements, list_elem_of_lookup. fold vocab_list. split.
    + intros [j Hj]. exists j. by apply lookup_word_to_index.
    + intros [j Hj]. exists j. by apply lookup_word_to_index.
  - rewrite lookup_index_to_word. apply lookup_lt_is_Some.
  - rewrite lookup_word_to_index by done. apply lookup_lt_Some.
Qed.

Section rnn_generation.
Variables (vocab_list : list string) (n : nat).
Hypothesis Hnodup : NoDup vocab_list.
Hypothesis Hstop : STOP_TOKEN ∈ vocab_list.

Lemma generate_loop_bounded (draws : list nat) (generated : list string) (curr_len : nat) :
  (curr_len ≤ n)%nat →
  (n - curr_len < length draws)%nat →
  Forall (λ i, i < length vocab_list)%nat draws →
  ∃ out, rnn.generate_loop vocab_list n draws generated curr_len
           = Ok (Some (join_space (generated ++ out)))
         ∧ (length out ≤ n - curr_len)%nat
         ∧ Forall (λ w, w ∈ vocab_list) out
         ∧ STOP_TOKEN ∉ out.
Proof.
  apply list_elem_of_lookup_1 in Hstop as [si Hsi].
  assert (Hwi : rnn.word_to_index vocab_list !! STOP_TOKEN = Some si)
    by (by apply lookup_word_to_index).
  revert generated curr_len.
  induction draws as [|next_word draws IH]; intros generated curr_len Hle Hfuel Hrange;
    [cbn [length] in Hfuel; lia|].
  cbn [rnn.generate_loop]. rewrite Hwi.
  apply Forall_cons in Hrange as [Hnext Hrange].
  destruct (bool_decide (next_word = si) || bool_decide (curr_len = n)) eqn:Hend.
  - exists []. rewrite app_nil_r. split; [done|]. split; [cbn; lia|].
    split; [constructor | apply not_elem_of_nil].
  - apply orb_false_iff in Hend as [Hne Hcap].
    apply bool_decide_eq_false in Hne. apply bool_decide_eq_false in Hcap.
    destruct (lookup_lt_is_Some_2 vocab_list next_word Hnext) as [w Hw].
    rewrite lookup_index_to_word, Hw.
    destruct (IH (generated ++ [w]) (S curr_len)) as (out & Hrun & Hlen & Hall & Hno).
    + lia.
    + cbn [length] in Hfuel. lia.
    + done.
    + exists (w :: out). rewrite Hrun, <- app_assoc. cbn [app].
      split; [done|]. split; [cbn [length]; lia|]. split.
      * constructor; [by eapply list_elem_of_lookup_2 | done].
      * intros [Heq|Hin]%elem_of_cons; [|done]. subst w.
        apply Hne. by eapply NoDup_lookup.
Qed.
End rnn_generation.

(** X24. The generation loop of the recurrent-network notebook is bounded
    by [sent_len]: whatever indices below len(vocab) the network draws,
    given more than [sent_len] of them the loop ends and prints a headline
    of at most [sent_len] words, all of the vocabulary and none of them
    STOP; no KeyError is raised. *)
Theorem rnn_generation_bounded
    (clean : list string) (n : nat) (draws : list nat)
    (Hdraws : (n < length draws)%nat)
    (Hrange : Forall (λ i, i < size (rnn.vocab clean))%nat draws) :
  ∃ out, rnn.generate_headline (elements (rnn.vocab clean)) n draws
           = Ok (Some (join_space out))
         ∧ (length out ≤ n)%nat
         ∧ Forall (λ w, w ∈ rnn.vocab clean) out
         ∧ STOP_TOKEN ∉ out.
Proof.
  destruct (generate_loop_bounded (elements (rnn.vocab clean)) n
              (NoDup_elements _)
              ltac:(apply elem_of_elements; unfold rnn.vocab;
                    apply elem_of_union; right; by apply elem_of_singleton)
              draws [] 0)
    as (out & Hrun & Hlen & Hall & Hno); [lia | lia | done|].
  exists out. split; [done|]. split; [lia|]. split; [|done].
  eapply Forall_impl; [exact Hall|]. intros w. apply elem_of_elements.
Qed.

Lemma rnn_generation_bounded_witness :
  ∃ out, rnn.generate_headline (elements (rnn.vocab ["a b"; "c"]%string)) 3
           [0; 1; 0; 2; 1]%nat = Ok (Some (join_space out))
         ∧ (length out ≤ 3)%nat
         ∧ Forall (λ w, w ∈ rnn.vocab ["a b"; "c"]%string) out
         ∧ STOP_TOKEN ∉ out.
Proof.
  apply (rnn_generation_bounded ["a b"; "c"]%string 3 [0; 1; 0; 2; 1]%nat).
  - cbn. lia.
  - repeat constructor; vm_compute; lia.
Defined.

(** X25. In the recurrent-network notebook STOP is in the vocabulary and
    START is not, so START has no index; yet every label of every training
    window of every rewritten line is a vocabulary word and has an index:
    the lookup [word_to_index[word]] of the batch generator finds its
    key. *)
Theorem rnn_labels_have_indices
    (raw : list string) (min_freq : Z) (n : nat) (h : string)
    (ws : list (list string * string)) (hist : list string) (word : string)
    (Hline : h ∈ rnn.headlines_clean raw min_freq)
    (Hwindows : rnn.windows n h = Some ws)
    (Hlabel : (hist, word) ∈ ws) :
  let clean := rnn.headlines_clean raw min_freq in
  let vocab_list := elements (rnn.vocab clean) in
  STOP_TOKEN ∈ rnn.vocab clean
  ∧ (START_TOKEN ∉ rnn.vocab clean)
  ∧ rnn.word_to_index vocab_list !! START_TOKEN = None
  ∧ word ∈ rnn.vocab clean
  ∧ is_Some (rnn.word_to_index vocab_list !! word).
Proof.
  intros clean vocab_list.
  assert (Hmem : ∀ k, k ∈ rnn.vocab clean ↔
            k = STOP_TOKEN ∨ ∃ h', h' ∈ clean ∧ k ∈ split_space h').
  { intros k. unfold rnn.vocab.
    rewrite elem_of_union, elem_of_singleton, elem_of_list_to_set, elem_of_concat.
    split.
    - intros [(l & Hk & Hl)| ->]; [|by left].
      apply elem_of_map in Hl as (h' & -> & Hh'). right; eauto.
    - intros [->|(h' & Hh' & Hk)]; [by right|]. left.
      exists (split_space h'). split; [done|]. apply elem_of_map. eauto. }
  assert (Hstart : START_TOKEN ∉ rnn.vocab clean).
  { intros [?|(h' & Hh' & Hk)]%Hmem; [done|].
    by destruct (clean_word_not_boundary (take rnn.max_lines raw) min_freq h' START_TOKEN Hh' Hk). }
  assert (Hword : word ∈ rnn.vocab clean).
  { assert (Hin : word ∈ map snd ws) by (apply elem_of_map; by exists (hist, word)).
    rewrite (windows_labels n h ws Hwindows) in Hin. apply Hmem.
    apply elem_of_app in Hin as [Hin|Hin]; [right; eauto|].
    left. by apply list_elem_of_singleton in Hin. }
  destruct (index_dictionaries_aux clean) as [Hidx Hnone].
  split; [apply Hmem; by left|]. split; [done|].
  split; [by apply Hnone|]. split; [done | by apply Hidx].
Qed.

Lemma rnn_labels_have_indices_witness :
  is_Some (rnn.word_to_index
             (elements (rnn.vocab (rnn.headlines_clean corpus_ab 1))) !! UNK_TOKEN).
Proof.
  refine (proj2 (proj2 (proj2 (proj2
    (rnn_labels_have_indices corpus_ab 1 2 "a <UNK>"
       [([START_TOKEN; START_TOKEN], "a"%string);
        ([START_TOKEN; "a"%string], UNK_TOKEN);
        (["a"%string; UNK_TOKEN], STOP_TOKEN)]
       [START_TOKEN; "a"%string] UNK_TOKEN _ _ _))))).
  - vm_compute. left.
  - vm_compute. reflexivity.
  - right. left.
Defined.

(** ** Rewriting a held-out line *)

(** X26. [replace_text_dev] keeps the number of words of a line; every
    word of the rewritten line is a vocabulary word or "<UNK>"; and a line
    whose words are all in the vocabulary is only normalised to single
    spaces. *)
Theorem replace_text_dev_words (voc : gset string) (text : string) :
  let rewritten := replace_text_dev voc text in
  length (split_ws rewritten) = length (split_ws text)
  ∧ Forall (λ w, w ∈ voc ∨ w = UNK_TOKEN) (split_ws rewritten)
  ∧ ((∀ t, t ∈ split_ws text → t ∈ voc) → rewritten = join_space (split_ws text)).
Proof.
  intros rewritten. subst rewritten. unfold replace_text_dev.
  rewrite split_ws_join_words.
  - split; [by rewrite length_map|]. split.
    + apply Forall_forall. intros w (t & -> & Ht)%elem_of_map.
      case_decide as Hv; [by right | by left].
    + intros Hall. f_equal. rewrite <- (map_id (split_ws text)) at 2.
      apply map_ext_in. intros t Ht%list_elem_of_In.
      rewrite decide_False; [done|]. intros Hn. by apply Hn, Hall.
  - apply Forall_forall. intros w (t & -> & Ht)%elem_of_map.
    case_decide; [apply UNK_is_word | by apply split_ws_is_word in Ht].
Qed.

Lemma replace_text_dev_words_witness :
  replace_text_dev {["a"; "b"]}%string " a   b " = "a b"%string.
Proof.
  apply (proj2 (proj2 (replace_text_dev_words {["a"; "b"]}%string " a   b "))).
  intros t Ht. vm_compute in Ht.
  apply elem_of_cons in Ht as [->|Ht]; [set_solver|].
  apply list_elem_of_singleton in Ht as ->. set_solver.
Defined.
